(** * Aegis: a caching reverse proxy with fail-over to stored responses

    Shallow embedding of the request-handling core of the proxy
    ([internal/utils/http.go], [internal/cache/cache.go],
    [internal/proxy/proxy.go]) together with the properties of its
    cache, cache key, header copying and fail-over logic.

    Conventions of the embedding:
    - Go strings and byte slices are [string] (sequences of bytes);
    - [http.Header], a [map[string][]string], is a [gmap string (list string)];
      a nil map and an empty map are both [∅];
    - [time.Time] is an instant counted in nanoseconds from Go's zero time
      (January 1, year 1, 00:00:00 UTC), so [IsZero t] is [t = 0];
      [time.Duration] is a number of nanoseconds;
    - every reading of the clock, the outcome of the upstream exchange and
      the iteration order of Go maps are explicit inputs. *)

From Stdlib Require Import ZArith Ascii String List Lia Permutation.
From stdpp Require Import base gmap strings list fin_maps pretty.

Local Open Scope Z_scope.

(** ** Header keys: net/textproto canonical form

    [http.CanonicalHeaderKey] belongs to Go's standard library; the model
    below follows [textproto.CanonicalMIMEHeaderKey] and its helper
    [canonicalMIMEHeaderKey] step by step. *)

Module Textproto.

Definition byteIn (lo hi : nat) (c : ascii) : bool :=
  (lo <=? nat_of_ascii c)%nat && (nat_of_ascii c <=? hi)%nat.

Definition isLowerByte (c : ascii) : bool := byteIn 97 122 c.
Definition isUpperByte (c : ascii) : bool := byteIn 65 90 c.
Definition isDigitByte (c : ascii) : bool := byteIn 48 57 c.

(** The bytes of an HTTP token: letters, digits and
    [! # $ % & ' * + - . ^ _ ` | ~]. *)
Definition validHeaderFieldByte (c : ascii) : bool :=
  isDigitByte c || isLowerByte c || isUpperByte c ||
  existsb (Nat.eqb (nat_of_ascii c))
    [33; 35; 36; 37; 38; 39; 42; 43; 45; 46; 94; 95; 96; 124; 126]%nat.

(** [toLower = 'a' - 'A'] *)
Definition toLower : nat := 32.

Definition isDash (c : ascii) : bool := Ascii.eqb c "-".

(** The quick scan of [CanonicalMIMEHeaderKey]: [true] when the scan hands
    the key over to [canonicalMIMEHeaderKey], [false] when it returns the
    key as it is (an invalid byte was met, or the key is canonical). *)
Fixpoint canonScan (upper : bool) (s : string) : bool :=
  match s with
  | EmptyString => false
  | String c s' =>
      if negb (validHeaderFieldByte c) then false
      else if upper && isLowerByte c then true
      else if negb upper && isUpperByte c then true
      else canonScan (isDash c) s'
  end.

(** First loop of [canonicalMIMEHeaderKey]: [None] when a byte that is
    neither a token byte nor a space is met (the key is returned
    unchanged), otherwise [Some noCanon]. *)
Fixpoint keyShape (noCanon : bool) (a : string) : option bool :=
  match a with
  | EmptyString => Some noCanon
  | String c a' =>
      if validHeaderFieldByte c then keyShape noCanon a'
      else if Ascii.eqb c " " then keyShape true a'
      else None
  end.

(** Second loop: first letter upper case, upper case after each dash,
    lower case elsewhere. *)
Definition canonByte (upper : bool) (c : ascii) : ascii :=
  if upper && isLowerByte c then ascii_of_nat (nat_of_ascii c - toLower)
  else if negb upper && isUpperByte c then ascii_of_nat (nat_of_ascii c + toLower)
  else c.

Fixpoint canonRewrite (upper : bool) (a : string) : string :=
  match a with
  | EmptyString => EmptyString
  | String c a' =>
      let c' := canonByte upper c in
      String c' (canonRewrite (isDash c') a')
  end.

Definition canonicalMIMEHeaderKey (a : string) : string :=
  match keyShape false a with
  | None => a
  | Some true => a
  | Some false => canonRewrite true a
  end.

Definition CanonicalMIMEHeaderKey (s : string) : string :=
  if canonScan true s then canonicalMIMEHeaderKey s else s.

End Textproto.

Definition CanonicalHeaderKey (s : string) : string :=
  Textproto.CanonicalMIMEHeaderKey s.

(** ASCII case folding, used to say "case-insensitively". *)
Definition lowerByte (c : ascii) : ascii :=
  if Textproto.isUpperByte c then ascii_of_nat (nat_of_ascii c + Textproto.toLower) else c.

Fixpoint lowerString (s : string) : string :=
  match s with
  | EmptyString => EmptyString
  | String c s' => String (lowerByte c) (lowerString s')
  end.

(** [strings.EqualFold] restricted to ASCII letters. *)
Definition equalFold (s t : string) : Prop := lowerString s = lowerString t.

(** A header name made of token bytes only. *)
Fixpoint isToken (s : string) : bool :=
  match s with
  | EmptyString => true
  | String c s' => Textproto.validHeaderFieldByte c && isToken s'
  end.

(** ** internal/utils/http.go *)

(** The nine names of the [switch] in [IsHopByHopHeader]. *)
Definition hopByHopHeaders : list string :=
  ["Connection"; "Proxy-Connection"; "Keep-Alive"; "Proxy-Authenticate";
   "Proxy-Authorization"; "Te"; "Trailer"; "Transfer-Encoding"; "Upgrade"]%string.

Definition IsHopByHopHeader (key : string) : bool :=
  let k := CanonicalHeaderKey key in
  existsb (String.eqb k) hopByHopHeaders.

(** *** net/http Header operations *)

Abbreviation HeaderMap := (gmap string (list string)).

(** [h[key]], with a missing key read as the nil slice. *)
Definition values (h : HeaderMap) (key : string) : list string :=
  default [] (h !! key).

(** [Header.Values]: the values under the canonical form of [key]. *)
Definition Values (h : HeaderMap) (key : string) : list string :=
  values h (CanonicalHeaderKey key).

(** [Header.Get]: the first value under the canonical form of [key], or
    the empty string. *)
Definition HGet (h : HeaderMap) (key : string) : string :=
  match Values h key with
  | [] => EmptyString
  | v :: _ => v
  end.

(** [Header.Add]: [h[k] = append(h[k], value)] for the canonical [k]. *)
Definition HAdd (h : HeaderMap) (key value : string) : HeaderMap :=
  <[CanonicalHeaderKey key := values h (CanonicalHeaderKey key) ++ [value]]> h.

(** [Header.Set]: [h[k] = []string{value}] for the canonical [k]. *)
Definition HSet (h : HeaderMap) (key value : string) : HeaderMap :=
  <[CanonicalHeaderKey key := [value]]> h.

(** [Header.Del] *)
Definition HDel (h : HeaderMap) (key : string) : HeaderMap :=
  delete (CanonicalHeaderKey key) h.

(** The inner loop [for _, v := range vv { dst.Add(k, v) }]. *)
Definition addValues (dst : HeaderMap) (k : string) (vv : list string) : HeaderMap :=
  fold_left (fun d v => HAdd d k v) vv dst.

(** One iteration of the outer loop of the two copy functions. *)
Definition copyEntry (dst : HeaderMap) (kv : string * list string) : HeaderMap :=
  if IsHopByHopHeader kv.1 then dst else addValues dst kv.1 kv.2.

(** [CopyHeadersForUpstream(dst, src)], where [src] is given as the
    sequence of entries in the order in which [range src] yields them. *)
Definition CopyHeadersForUpstream (dst : HeaderMap) (src : list (string * list string)) : HeaderMap :=
  fold_left copyEntry src dst.

(** [CopyHeadersForClient(dst, src)]: the same loop. *)
Definition CopyHeadersForClient (dst : HeaderMap) (src : list (string * list string)) : HeaderMap :=
  fold_left copyEntry src dst.

(** [CloneHeaderSanitized(h)] *)
Definition CloneHeaderSanitized (h : list (string * list string)) : HeaderMap :=
  let out : HeaderMap := ∅ in
  CopyHeadersForClient out h.

(** What one entry of the source contributes under the destination key
    [c], and what a whole pass of the copy loop appends under [c]. *)
Definition entryFor (c : string) (kv : string * list string) : list string :=
  if IsHopByHopHeader kv.1 then []
  else if String.eqb (CanonicalHeaderKey kv.1) c then kv.2 else [].

Fixpoint copied (c : string) (l : list (string * list string)) : list string :=
  match l with
  | [] => []
  | kv :: l' => entryFor c kv ++ copied c l'
  end.

(** A header map as the proxy stores it: canonical keys, no hop-by-hop
    header, no key without a value. *)
Definition sanitized (h : HeaderMap) : Prop :=
  forall k vv, h !! k = Some vv ->
    CanonicalHeaderKey k = k /\ IsHopByHopHeader k = false /\ vv <> [].

(** *** Paths *)

(** [strings.TrimLeft(s, "/")] *)
Fixpoint trimLeftSlash (s : string) : string :=
  match s with
  | String c s' => if Ascii.eqb c "/" then trimLeftSlash s' else s
  | EmptyString => EmptyString
  end.

(** [strings.TrimRight(s, "/")] *)
Fixpoint trimRightSlash (s : string) : string :=
  match s with
  | EmptyString => EmptyString
  | String c s' =>
      match trimRightSlash s' with
      | EmptyString => if Ascii.eqb c "/" then EmptyString else String c EmptyString
      | t => String c t
      end
  end.

Definition EnsureLeadingSlash (s : string) : string :=
  match s with
  | EmptyString => "/"
  | String c _ => if negb (Ascii.eqb c "/") then "/" +:+ s else s
  end.

Definition SingleSlashJoin (a b : string) : string :=
  if String.eqb a "" || String.eqb a "/" then EnsureLeadingSlash b
  else if String.eqb b "" || String.eqb b "/" then EnsureLeadingSlash a
  else trimRightSlash a +:+ "/" +:+ trimLeftSlash b.

(** *** Time and contexts *)

Abbreviation Time := Z.
Abbreviation Duration := Z.

Definition IsZero (t : Time) : bool := t =? 0.
(** [t.After(u)] *)
Definition After (t u : Time) : bool := u <? t.
(** [t.Before(u)] *)
Definition Before (t u : Time) : bool := t <? u.
(** [t.Add(d)] *)
Definition TimeAdd (t : Time) (d : Duration) : Time := t + d.
(** [time.Until(t)], with [now] the reading of the clock it takes. *)
Definition Until (now t : Time) : Duration := t - now.

(** Of a [context.Context] the handler only uses the deadline:
    [Deadline() (deadline, ok)] is [Some deadline] or [None]. *)
Record Context := { Deadline : option Time }.

(** [context.WithDeadline(parent, d)] (standard library): when the parent's
    deadline is already before [d] the parent's deadline stays in force. *)
Definition WithDeadline (parent : Context) (d : Time) : Context :=
  match Deadline parent with
  | Some cur => if Before cur d then parent else {| Deadline := Some d |}
  | None => {| Deadline := Some d |}
  end.

(** [context.WithTimeout(parent, timeout)] is
    [WithDeadline(parent, time.Now().Add(timeout))]. *)
Definition WithTimeout (now : Time) (parent : Context) (timeout : Duration) : Context :=
  WithDeadline parent (TimeAdd now timeout).

(** [RequestContextWithTimeout(parent, d)]; [now1] is the clock read by
    [time.Until], [now2] the clock read by [context.WithTimeout]. The
    cancel function is not modelled. *)
Definition RequestContextWithTimeout (now1 now2 : Time) (parent : Context) (d : Duration) : Context :=
  match Deadline parent with
  | Some deadline =>
      if Until now1 deadline <? d then parent else WithTimeout now2 parent d
  | None => WithTimeout now2 parent d
  end.

(** [ZeroOrExpiry(ttl)], with [now] the reading of the clock. *)
Definition ZeroOrExpiry (now : Time) (ttl : Duration) : Time :=
  if ttl <=? 0 then 0 else TimeAdd now ttl.

(** ** internal/cache/cache.go *)

Record Response := {
  Status : Z;
  Header : HeaderMap;
  Body : string;
  SavedAt : Time;
  ExpireAt : Time  (* zero => no expiration *)
}.

(** The zero value [Response{}]. *)
Definition zeroResponse : Response :=
  {| Status := 0; Header := ∅; Body := ""; SavedAt := 0; ExpireAt := 0 |}.

(** The cache is its map; the mutex, which only serialises the calls, is
    not part of the state. *)
Record Cache := { data : gmap string Response }.

Definition New : Cache := {| data := ∅ |}.

(** Methods on [*Cache] take the cache and return their result together
    with the cache they leave behind. *)
Definition Get (key : string) (now : Time) (c : Cache) : (Response * bool) * Cache :=
  match data c !! key with
  | None => ((zeroResponse, false), c)
  | Some v =>
      if negb (IsZero (ExpireAt v)) && After now (ExpireAt v)
      then ((zeroResponse, false), c)
      else ((v, true), c)
  end.

Definition Set_ (key : string) (value : Response) (c : Cache) : unit * Cache :=
  (tt, {| data := <[key := value]> (data c) |}).

Definition Size (c : Cache) : Z * Cache :=
  (Z.of_nat (size (data c)), c).

(** ** internal/proxy/proxy.go *)

(** The fields of [url.URL] the handler reads or writes. *)
Record URL := {
  Scheme : string;
  Host : string;
  Path : string;
  RawQuery : string
}.

(** [Proxy]: [timeout] is [p.client.Timeout]; the cache the proxy points
    to is threaded through the handler as state. *)
Record Proxy := {
  upstream : URL;
  timeout : Duration;
  ttl : Duration;
  keyHeaders : list string
}.

(** The inbound [*http.Request]. *)
Record Request := {
  Method : string;
  ReqURL : URL;
  ReqHeader : HeaderMap;
  ReqBody : string;
  ReqContext : Context
}.

(** The outbound request handed to [p.client.Do]. *)
Record OutRequest := {
  OutContext : Context;
  OutMethod : string;
  OutURL : URL;
  OutBody : string;
  OutHeader : HeaderMap
}.

(** What [io.ReadAll(resp.Body)] yields. *)
Inductive BodyRead :=
  | ReadOk (respBody : string)
  | ReadErr (err : string).

(** What [p.client.Do(req)] yields: an error, or a response with its
    status code, header and body stream. *)
Inductive DoResult :=
  | DoErr (err : string)
  | DoResp (StatusCode : Z) (RespHeader : HeaderMap) (RespBody : BodyRead).

(** Everything outside the handler that one call of [ServeHTTP] depends
    on: the error, if any, of [http.NewRequestWithContext] for a method
    and URL; the upstream exchange; the order in which [range] walks a
    header map; the rendering [Format(time.RFC3339)]; and the readings of
    the clock, one per call of [time.Now] in program order. *)
Record Env := {
  newRequestErr : string -> URL -> option string;
  clientDo : OutRequest -> DoResult;
  rangeOrder : HeaderMap -> list (string * list string);
  formatRFC3339 : Time -> string;
  nowUntil : Time;
  nowTimeout : Time;
  nowSaved : Time;
  nowExpiry : Time;
  nowGet : Time
}.

(** [range] yields every entry of the map once, in some order. *)
Definition rangeSound (env : Env) : Prop :=
  forall h : HeaderMap, rangeOrder env h ≡ₚ map_to_list h.

(** The [http.ResponseWriter] as a recorder of what the handler sends:
    the header map, the status code once written, the body bytes. *)
Record ResponseWriter := {
  wHeader : HeaderMap;
  wCode : option Z;
  wBody : string
}.

(** A writer nothing has been written to. *)
Definition newRecorder : ResponseWriter :=
  {| wHeader := ∅; wCode := None; wBody := "" |}.

Definition withHeader (w : ResponseWriter) (h : HeaderMap) : ResponseWriter :=
  {| wHeader := h; wCode := wCode w; wBody := wBody w |}.

(** [w.WriteHeader(code)]; a second call does not change the status. *)
Definition WriteHeader (w : ResponseWriter) (code : Z) : ResponseWriter :=
  match wCode w with
  | Some _ => w
  | None => {| wHeader := wHeader w; wCode := Some code; wBody := wBody w |}
  end.

(** [w.Write(b)]; writes status 200 first when none was written. *)
Definition Write (w : ResponseWriter) (b : string) : ResponseWriter :=
  let w := WriteHeader w 200 in
  {| wHeader := wHeader w; wCode := wCode w; wBody := wBody w +:+ b |}.

Definition StatusBadGateway : Z := 502.

(** [http.Error(w, error, code)] (standard library): plain-text content
    type, no sniffing, the status code, then the message and a newline. *)
Definition httpError (w : ResponseWriter) (error : string) (code : Z) : ResponseWriter :=
  let h := HDel (wHeader w) "Content-Length" in
  let h := HSet h "Content-Type" "text/plain; charset=utf-8" in
  let h := HSet h "X-Content-Type-Options" "nosniff" in
  let w := WriteHeader (withHeader w h) code in
  Write w (error +:+ String "010" "").

(** [p.cacheKey(r)]: the loop over [p.keyHeaders] appends to [key]. *)
Definition cacheKeyStep (r : Request) (key headerName : string) : string :=
  let headerValue := HGet (ReqHeader r) headerName in
  if negb (String.eqb headerValue "")
  then key +:+ "|" +:+ headerName +:+ ":" +:+ headerValue
  else key.

Definition cacheKey (p : Proxy) (r : Request) : string :=
  let key := Method r +:+ " " +:+ Path (ReqURL r) +:+ "?" +:+ RawQuery (ReqURL r) in
  fold_left (cacheKeyStep r) (keyHeaders p) key.

(** The key format in the words of its description: after
    [<METHOD> <path>?<rawQuery>], one segment per configured header name,
    [|<HeaderName>:<value>] when the request has a non-empty value for
    it, nothing otherwise. *)
Definition keySegment (r : Request) (headerName : string) : string :=
  if String.eqb (HGet (ReqHeader r) headerName) "" then ""
  else "|" +:+ headerName +:+ ":" +:+ HGet (ReqHeader r) headerName.

Definition concatAll (l : list string) : string :=
  fold_right String.append "" l.

Definition keyFormat (p : Proxy) (r : Request) : string :=
  Method r +:+ " " +:+ Path (ReqURL r) +:+ "?" +:+ RawQuery (ReqURL r) +:+
  concatAll (map (keySegment r) (keyHeaders p)).

Definition tryServeFromCache (p : Proxy) (env : Env) (w : ResponseWriter)
    (r : Request) (key cause : string) (c : Cache) : ResponseWriter * Cache :=
  let '((cached, ok), c) := Get key (nowGet env) c in
  if ok then
    let h := CopyHeadersForClient (wHeader w) (rangeOrder env (Header cached)) in
    let h := HSet h "X-Served-By" "Aegis" in
    let h := HSet h "X-Cache" "HIT-BACKUP" in
    let h := HSet h "X-Backup-Saved-At" (formatRFC3339 env (SavedAt cached)) in
    let w := WriteHeader (withHeader w h) (Status cached) in
    (Write w (Body cached), c)
  else
    (httpError w ("Bad Gateway (no cached backup): " +:+ cause) StatusBadGateway, c).

Definition isCacheable (r : Request) : bool :=
  String.eqb (Method r) "GET" || String.eqb (Method r) "HEAD".

(** The URL of the upstream request: base, joined path, query. *)
Definition upstreamURL (p : Proxy) (r : Request) : URL :=
  {| Scheme := Scheme (upstream p);
     Host := Host (upstream p);
     Path := SingleSlashJoin (Path (upstream p)) (Path (ReqURL r));
     RawQuery := RawQuery (ReqURL r) |}.

(** The request sent upstream once [NewRequestWithContext] succeeded and
    the headers were copied into its empty header map. *)
Definition upstreamRequest (p : Proxy) (env : Env) (r : Request) : OutRequest :=
  let ctx := RequestContextWithTimeout (nowUntil env) (nowTimeout env) (ReqContext r) (timeout p) in
  {| OutContext := ctx;
     OutMethod := Method r;
     OutURL := upstreamURL p r;
     OutBody := ReqBody r;
     OutHeader := CopyHeadersForUpstream ∅ (rangeOrder env (ReqHeader r)) |}.

Definition ServeHTTP (p : Proxy) (env : Env) (w : ResponseWriter) (r : Request)
    (c : Cache) : ResponseWriter * Cache :=
  let cacheable := isCacheable r in
  let cacheKey := if cacheable then cacheKey p r else "" in
  match newRequestErr env (Method r) (upstreamURL p r) with
  | Some err =>
      if cacheable
      then tryServeFromCache p env w r cacheKey ("build request: " +:+ err) c
      else (httpError w ("Bad Gateway: " +:+ err) StatusBadGateway, c)
  | None =>
      match clientDo env (upstreamRequest p env r) with
      | DoErr err =>
          if cacheable
          then tryServeFromCache p env w r cacheKey err c
          else (httpError w ("Bad Gateway: " +:+ err) StatusBadGateway, c)
      | DoResp StatusCode RespHeader (ReadErr err) =>
          if cacheable
          then tryServeFromCache p env w r cacheKey ("read upstream body: " +:+ err) c
          else (httpError w ("Bad Gateway: " +:+ err) StatusBadGateway, c)
      | DoResp StatusCode RespHeader (ReadOk respBody) =>
          if (500 <=? StatusCode) && cacheable
          then tryServeFromCache p env w r cacheKey
                 ("upstream status " +:+ pretty StatusCode) c
          else
            let h := CopyHeadersForClient (wHeader w) (rangeOrder env RespHeader) in
            let h := HSet h "X-Served-By" "Aegis" in
            let '(saved, c) :=
              if cacheable && (200 <=? StatusCode) && (StatusCode <=? 299) then
                let entry :=
                  {| Status := StatusCode;
                     Header := CloneHeaderSanitized (rangeOrder env RespHeader);
                     Body := respBody;
                     SavedAt := nowSaved env;
                     ExpireAt := ZeroOrExpiry (nowExpiry env) (ttl p) |} in
                (true, (Set_ cacheKey entry c).2)
              else (false, c) in
            let h :=
              if saved then HSet h "X-Cache" "MISS"
              else if cacheable then HSet h "X-Cache" "PASS"
              else HSet h "X-Cache" "BYPASS" in
            let w := WriteHeader (withHeader w h) StatusCode in
            (Write w respBody, c)
      end
  end.

(** The response a client of a fresh connection receives, and the cache
    left behind. *)
Definition Handle (p : Proxy) (env : Env) (r : Request) (c : Cache) : ResponseWriter * Cache :=
  ServeHTTP p env newRecorder r c.

(** ** Vocabulary of the properties *)

(** The one upstream attempt of a request, as the handler meets it: it
    fails with an error (the message of the error, and the cause handed to
    the fallback: a build error, a transport error or a body-read error),
    or it is answered with a status, a header and a body read in full. *)
Inductive Attempt :=
  | Failed (err cause : string)
  | Answered (StatusCode : Z) (RespHeader : HeaderMap) (respBody : string).

Definition attempt (p : Proxy) (env : Env) (r : Request) : Attempt :=
  match newRequestErr env (Method r) (upstreamURL p r) with
  | Some err => Failed err ("build request: " +:+ err)
  | None =>
      match clientDo env (upstreamRequest p env r) with
      | DoErr err => Failed err err
      | DoResp _ _ (ReadErr err) => Failed err ("read upstream body: " +:+ err)
      | DoResp StatusCode RespHeader (ReadOk respBody) =>
          Answered StatusCode RespHeader respBody
      end
  end.

(** The cause of a failed attempt: one of the three errors, or a status
    of 500 or more. *)
Definition failureCause (p : Proxy) (env : Env) (r : Request) : option string :=
  match attempt p env r with
  | Failed _ cause => Some cause
  | Answered StatusCode _ _ =>
      if 500 <=? StatusCode then Some ("upstream status " +:+ pretty StatusCode) else None
  end.

(** The headers [http.Error] leaves on a fresh writer. *)
Definition errorHeader : HeaderMap :=
  {[ "Content-Type"%string := ["text/plain; charset=utf-8"%string];
     "X-Content-Type-Options"%string := ["nosniff"%string] ]}.

(** The synthesized 502 response with the given message. *)
Definition badGateway (message : string) : ResponseWriter :=
  {| wHeader := errorHeader;
     wCode := Some StatusBadGateway;
     wBody := message +:+ String "010" "" |}.

(** The cache status of a response passed through from the upstream. *)
Definition passStatus (cacheable : bool) (StatusCode : Z) : string :=
  if cacheable && (200 <=? StatusCode) && (StatusCode <=? 299) then "MISS"
  else if cacheable then "PASS"
  else "BYPASS".

(** The annotations of a response served from the cache. *)
Definition backupHeader (env : Env) (h : HeaderMap) (savedAt : Time) : HeaderMap :=
  HSet (HSet (HSet h "X-Served-By" "Aegis") "X-Cache" "HIT-BACKUP")
       "X-Backup-Saved-At" (formatRFC3339 env savedAt).

(** Every stored response has a sanitized header. *)
Definition storeSanitized (c : Cache) : Prop :=
  forall key v, data c !! key = Some v -> sanitized (Header v).

(** The four values of the cache-status header. *)
Definition cacheStatuses : list string := ["MISS"; "PASS"; "BYPASS"; "HIT-BACKUP"]%string.

(** ** Sample inputs *)

Module Sample.

Definition proxy : Proxy :=
  {| upstream := {| Scheme := "http"; Host := "backend:8080"; Path := "/api"; RawQuery := "" |};
     timeout := 1000;
     ttl := 100;
     keyHeaders := ["X-Tenant-ID"; "Authorization"]%string |}.

Definition request (method : string) (h : HeaderMap) : Request :=
  {| Method := method;
     ReqURL := {| Scheme := ""; Host := ""; Path := "/users"; RawQuery := "page=1" |};
     ReqHeader := h;
     ReqBody := "";
     ReqContext := {| Deadline := None |} |}.

(** An environment whose upstream gives the same outcome to every
    request; maps are walked in the order of [map_to_list]. *)
Definition env (outcome : DoResult) (now : Time) : Env :=
  {| newRequestErr := fun _ _ => None;
     clientDo := fun _ => outcome;
     rangeOrder := map_to_list;
     formatRFC3339 := pretty;
     nowUntil := now;
     nowTimeout := now;
     nowSaved := now;
     nowExpiry := now;
     nowGet := now |}.

Definition okHeader : HeaderMap :=
  {[ "Content-Type"%string := ["application/json"%string];
     "Connection"%string := ["keep-alive"%string] ]}.

Definition ok : DoResult := DoResp 200 okHeader (ReadOk "{}").
Definition serverError : DoResult := DoResp 500 ∅ (ReadOk "error").
Definition notFound : DoResult := DoResp 404 ∅ (ReadOk "no such user").
Definition unreachable : DoResult := DoErr "dial tcp: connection refused".

Definition stored : Response :=
  {| Status := 200;
     Header := {[ "Content-Type"%string := ["application/json"%string] ]};
     Body := "{}";
     SavedAt := 50;
     ExpireAt := 150 |}.

End Sample.

(** ** internal/cache/cache.go: memory usage *)

(** [int64] arithmetic: the sum wraps around at 64 bits. *)
Definition wrap64 (z : Z) : Z := (z + 2 ^ 63) mod 2 ^ 64 - 2 ^ 63.

(** The range of an [int64]. *)
Definition inRange64 (z : Z) : Prop := - 2 ^ 63 <= z < 2 ^ 63.

(** [int64(len(s))] *)
Definition len (s : string) : Z := Z.of_nat (String.length s).

(** The loop over the values of one header: [total += int64(len(val))]. *)
Definition addValueLengths (total : Z) (values : list string) : Z :=
  fold_left (fun total val => wrap64 (total + len val)) values total.

(** One header of an entry: its name, then its values. *)
Definition addHeaderLengths (total : Z) (kv : string * list string) : Z :=
  addValueLengths (wrap64 (total + len kv.1)) kv.2.

(** One entry of the cache: key, body, headers; [rangeHeader] is the order
    in which [range v.Header] walks the header map. *)
Definition addEntryLengths (rangeHeader : HeaderMap -> list (string * list string))
    (total : Z) (kv : string * Response) : Z :=
  let total := wrap64 (total + len kv.1) in
  let total := wrap64 (total + len (Body kv.2)) in
  fold_left addHeaderLengths (rangeHeader (Header kv.2)) total.

(** [MemoryUsage()]; [rangeData] is the order in which [range c.data]
    walks the cache. *)
Definition MemoryUsage
    (rangeData : gmap string Response -> list (string * Response))
    (rangeHeader : HeaderMap -> list (string * list string))
    (c : Cache) : Z * Cache :=
  (fold_left (addEntryLengths rangeHeader) (rangeData (data c)) 0, c).

(** The sizes the loop adds up, as plain sums. *)
Definition sumOf {A : Type} (f : A -> Z) (l : list A) : Z :=
  fold_right (fun x acc => f x + acc) 0 l.

Definition headerBytes (kv : string * list string) : Z :=
  len kv.1 + sumOf len kv.2.

Definition entryBytes (kv : string * Response) : Z :=
  len kv.1 + len (Body kv.2) + sumOf headerBytes (map_to_list (Header kv.2)).

Definition cacheBytes (c : Cache) : Z :=
  sumOf entryBytes (map_to_list (data c)).

(** ** internal/logger *)

Module Logger.

Record Logger := {
  enabled : bool;
  accessLog : bool;
  level : string
}.

Definition New (enabled accessLog : bool) (level : string) : Logger :=
  {| enabled := enabled; accessLog := accessLog; level := level |}.

(** The three methods append a line to the log [out]; [message] is the
    text [format] and its arguments render to. *)
Definition Debug (l : Logger) (message : string) (out : list string) : list string :=
  if negb (enabled l) || negb (String.eqb (level l) "debug") then out
  else out ++ ["[DEBUG] " +:+ message].

Definition Info (l : Logger) (message : string) (out : list string) : list string :=
  if negb (enabled l) ||
     (negb (String.eqb (level l) "debug") && negb (String.eqb (level l) "info"))
  then out
  else out ++ ["[INFO] " +:+ message].

Definition Error (l : Logger) (message : string) (out : list string) : list string :=
  if negb (enabled l) then out
  else out ++ ["[ERROR] " +:+ message].

End Logger.

(** ** Further vocabulary *)

(** A run of [n] slashes. *)
Fixpoint slashes (n : nat) : string :=
  match n with
  | O => ""
  | S n' => String "/" (slashes n')
  end.

Definition firstByte (s : string) : option ascii :=
  match s with
  | EmptyString => None
  | String c _ => Some c
  end.

Fixpoint lastByte (s : string) : option ascii :=
  match s with
  | EmptyString => None
  | String c EmptyString => Some c
  | String _ s' => lastByte s'
  end.

(** The string has no byte [c]. *)
Fixpoint lacksByte (c : ascii) (s : string) : bool :=
  match s with
  | EmptyString => true
  | String c' s' => negb (Ascii.eqb c' c) && lacksByte c s'
  end.

(** Requests handled one after the other, each on a fresh writer and on
    the cache the one before left. *)
Fixpoint serveAll (p : Proxy) (reqs : list (Env * Request)) (c : Cache)
    : list ResponseWriter * Cache :=
  match reqs with
  | [] => ([], c)
  | er :: rest =>
      let '(w, c1) := Handle p er.1 er.2 c in
      let '(ws, c2) := serveAll p rest c1 in
      (w :: ws, c2)
  end.

(** What holds of every entry the handler stores: a status from 200 to
    299, a sanitized header, a key that starts with the method. *)
Definition storedByHandler (key : string) (v : Response) : Prop :=
  200 <= Status v <= 299 /\ sanitized (Header v) /\
  exists rest, key = "GET " +:+ rest \/ key = "HEAD " +:+ rest.

Definition storeWellFormed (c : Cache) : Prop :=
  forall key v, data c !! key = Some v -> storedByHandler key v.

(** * Properties *)

(** ** Canonical header keys *)

Section CanonicalKeys.
Import Textproto.

Local Ltac by_bytes c :=
  destruct c as [[] [] [] [] [] [] [] []]; vm_compute; try reflexivity; try discriminate.

Lemma canonByte_fixed upper c :
  validHeaderFieldByte c = true ->
  upper && isLowerByte c = false ->
  negb upper && isUpperByte c = false ->
  canonByte upper c = c.
Proof. intros _ H1 H2. unfold canonByte. now rewrite H1, H2. Qed.

Lemma lowerByte_canonByte upper c : lowerByte (canonByte upper c) = lowerByte c.
Proof. destruct upper; by_bytes c. Qed.

Lemma canonByte_lowerByte upper c : canonByte upper (lowerByte c) = canonByte upper c.
Proof. destruct upper; by_bytes c. Qed.

Lemma valid_lowerByte c : validHeaderFieldByte (lowerByte c) = validHeaderFieldByte c.
Proof. by_bytes c. Qed.

Lemma valid_canonByte upper c :
  validHeaderFieldByte (canonByte upper c) = validHeaderFieldByte c.
Proof. destruct upper; by_bytes c. Qed.

Lemma canonByte_idem upper c : canonByte upper (canonByte upper c) = canonByte upper c.
Proof. destruct upper; by_bytes c. Qed.

Lemma keyShape_noCanon a : keyShape true a = None \/ keyShape true a = Some true.
Proof.
  induction a as [|c a IH]; simpl; [now right|].
  destruct (validHeaderFieldByte c); [exact IH|].
  destruct (Ascii.eqb c " "); [exact IH | now left].
Qed.

Lemma keyShape_token noCanon a : isToken a = true -> keyShape noCanon a = Some noCanon.
Proof.
  induction a as [|c a IH]; simpl; [reflexivity|].
  intros [Hc Ha]%andb_prop. rewrite Hc. auto.
Qed.

Lemma keyShape_not_token a :
  isToken a = false -> keyShape false a = None \/ keyShape false a = Some true.
Proof.
  induction a as [|c a IH]; simpl; [discriminate|].
  destruct (validHeaderFieldByte c); simpl; [exact IH|].
  intros _. destruct (Ascii.eqb c " "); [apply keyShape_noCanon | now left].
Qed.

Lemma canonicalMIMEHeaderKey_eq a :
  canonicalMIMEHeaderKey a = if isToken a then canonRewrite true a else a.
Proof.
  unfold canonicalMIMEHeaderKey. destruct (isToken a) eqn:Ht.
  - now rewrite (keyShape_token false a Ht).
  - destruct (keyShape_not_token a Ht) as [-> | ->]; reflexivity.
Qed.

Lemma canonScan_false upper s :
  canonScan upper s = false -> isToken s = true -> canonRewrite upper s = s.
Proof.
  revert upper. induction s as [|c s IH]; intros upper; simpl; [reflexivity|].
  intros Hscan [Hc Hs]%andb_prop. rewrite Hc in Hscan. simpl in Hscan.
  destruct (upper && isLowerByte c) eqn:H1; [discriminate|].
  destruct (negb upper && isUpperByte c) eqn:H2; [discriminate|].
  rewrite (canonByte_fixed upper c Hc H1 H2). f_equal. now apply IH.
Qed.

End CanonicalKeys.

(** The canonical form rewrites token keys and leaves all others alone. *)
Lemma CanonicalHeaderKey_eq s :
  CanonicalHeaderKey s = if isToken s then Textproto.canonRewrite true s else s.
Proof.
  unfold CanonicalHeaderKey, Textproto.CanonicalMIMEHeaderKey.
  destruct (Textproto.canonScan true s) eqn:Hscan.
  - apply canonicalMIMEHeaderKey_eq.
  - destruct (isToken s) eqn:Ht; [|reflexivity].
    symmetry. now apply canonScan_false.
Qed.

Lemma lowerString_canonRewrite upper s :
  lowerString (Textproto.canonRewrite upper s) = lowerString s.
Proof.
  revert upper. induction s as [|c s IH]; intros upper; simpl; [reflexivity|].
  now rewrite lowerByte_canonByte, IH.
Qed.

Lemma canonRewrite_lowerString upper s :
  Textproto.canonRewrite upper (lowerString s) = Textproto.canonRewrite upper s.
Proof.
  revert upper. induction s as [|c s IH]; intros upper; simpl; [reflexivity|].
  now rewrite canonByte_lowerByte, IH.
Qed.

Lemma isToken_lowerString s : isToken (lowerString s) = isToken s.
Proof.
  induction s as [|c s IH]; simpl; [reflexivity|].
  now rewrite valid_lowerByte, IH.
Qed.

Lemma isToken_canonRewrite upper s : isToken (Textproto.canonRewrite upper s) = isToken s.
Proof.
  revert upper. induction s as [|c s IH]; intros upper; simpl; [reflexivity|].
  now rewrite valid_canonByte, IH.
Qed.

Lemma canonRewrite_idem upper s :
  Textproto.canonRewrite upper (Textproto.canonRewrite upper s) = Textproto.canonRewrite upper s.
Proof.
  revert upper. induction s as [|c s IH]; intros upper; simpl; [reflexivity|].
  now rewrite canonByte_idem, IH.
Qed.

Lemma CanonicalHeaderKey_idem s :
  CanonicalHeaderKey (CanonicalHeaderKey s) = CanonicalHeaderKey s.
Proof.
  rewrite (CanonicalHeaderKey_eq s). destruct (isToken s) eqn:Ht.
  - rewrite CanonicalHeaderKey_eq, isToken_canonRewrite, Ht. apply canonRewrite_idem.
  - rewrite CanonicalHeaderKey_eq, Ht. reflexivity.
Qed.

Lemma lowerString_CanonicalHeaderKey s :
  lowerString (CanonicalHeaderKey s) = lowerString s.
Proof.
  rewrite CanonicalHeaderKey_eq. destruct (isToken s); [|reflexivity].
  apply lowerString_canonRewrite.
Qed.

Lemma equalFold_isToken s t : equalFold s t -> isToken s = isToken t.
Proof.
  unfold equalFold. intros H.
  now rewrite <- (isToken_lowerString s), <- (isToken_lowerString t), H.
Qed.

(** Token names that differ in letter case only share their canonical form. *)
Lemma CanonicalHeaderKey_equalFold s t :
  isToken s = true -> equalFold s t -> CanonicalHeaderKey s = CanonicalHeaderKey t.
Proof.
  intros Hs Hst. pose proof (equalFold_isToken s t Hst) as Ht. rewrite Hs in Ht.
  rewrite !CanonicalHeaderKey_eq, Hs, <- Ht.
  rewrite <- (canonRewrite_lowerString true s), <- (canonRewrite_lowerString true t).
  now rewrite Hst.
Qed.

Lemma CanonicalHeaderKey_same_fold s t :
  CanonicalHeaderKey s = CanonicalHeaderKey t -> equalFold s t.
Proof.
  intros H. unfold equalFold.
  now rewrite <- (lowerString_CanonicalHeaderKey s), <- (lowerString_CanonicalHeaderKey t), H.
Qed.

Lemma IsHopByHopHeader_canonical k :
  IsHopByHopHeader (CanonicalHeaderKey k) = IsHopByHopHeader k.
Proof. unfold IsHopByHopHeader. now rewrite CanonicalHeaderKey_idem. Qed.

Lemma hopByHopHeaders_canonical :
  Forall (fun n => isToken n = true /\ CanonicalHeaderKey n = n) hopByHopHeaders.
Proof. repeat constructor. Qed.

(** [IsHopByHopHeader] holds exactly of the spellings, in any letter case,
    of the nine names. *)
Lemma IsHopByHopHeader_iff k :
  IsHopByHopHeader k = true <-> exists n, In n hopByHopHeaders /\ equalFold k n.
Proof.
  unfold IsHopByHopHeader. rewrite existsb_exists. split.
  - intros (n & Hin & Heq). apply String.eqb_eq in Heq. exists n. split; [exact Hin|].
    unfold equalFold. now rewrite <- Heq, lowerString_CanonicalHeaderKey.
  - intros (n & Hin & Hfold). exists n. split; [exact Hin|].
    apply String.eqb_eq.
    pose proof hopByHopHeaders_canonical as Hall.
    rewrite Forall_forall in Hall. destruct (Hall n) as [Htok Hcan].
    { now apply list_elem_of_In. }
    rewrite <- Hcan. symmetry. apply CanonicalHeaderKey_equalFold; [exact Htok|].
    unfold equalFold in *. congruence.
Qed.

(** ** Copying headers *)

Lemma values_HAdd (h : HeaderMap) k v c :
  values (HAdd h k v) c =
  if decide (CanonicalHeaderKey k = c) then values h c ++ [v] else values h c.
Proof.
  unfold values, HAdd. case_decide as Hk.
  - subst c. now rewrite lookup_insert_eq.
  - now rewrite lookup_insert_ne.
Qed.

Lemma addValues_lookup vv : forall (dst : HeaderMap) k c,
  addValues dst k vv !! c =
  if decide (CanonicalHeaderKey k = c /\ vv <> [])
  then Some (values dst c ++ vv) else dst !! c.
Proof.
  induction vv as [|v vv IH]; intros dst k c.
  - simpl. case_decide as H; [now destruct H|reflexivity].
  - unfold addValues in *. simpl. rewrite IH, values_HAdd.
    destruct (decide (CanonicalHeaderKey k = c)) as [Hk|Hk].
    + destruct (decide (CanonicalHeaderKey k = c /\ v :: vv <> [])) as [_|Hn];
        [|exfalso; apply Hn; split; [exact Hk|discriminate]].
      destruct (decide (CanonicalHeaderKey k = c /\ vv <> [])) as [_|Hv].
      * now rewrite <- app_assoc.
      * assert (vv = []) as ->.
        { destruct vv; [reflexivity|]. exfalso. apply Hv. split; [exact Hk|discriminate]. }
        unfold HAdd. subst c. rewrite lookup_insert_eq. reflexivity.
    + destruct (decide (CanonicalHeaderKey k = c /\ v :: vv <> [])) as [[? _]|_];
        [contradiction|].
      destruct (decide (CanonicalHeaderKey k = c /\ vv <> [])) as [[? _]|_];
        [contradiction|].
      unfold HAdd. now rewrite lookup_insert_ne.
Qed.

Lemma copyEntry_lookup (dst : HeaderMap) kv c :
  copyEntry dst kv !! c =
  match entryFor c kv with
  | [] => dst !! c
  | vs => Some (values dst c ++ vs)
  end.
Proof.
  unfold copyEntry, entryFor. destruct (IsHopByHopHeader kv.1); [reflexivity|].
  rewrite addValues_lookup.
  destruct (String.eqb_spec (CanonicalHeaderKey kv.1) c) as [Hk|Hk].
  - destruct kv.2 as [|v vv] eqn:E.
    + rewrite decide_False by (intros [_ ?]; contradiction). reflexivity.
    + rewrite decide_True by (split; [exact Hk|discriminate]). reflexivity.
  - rewrite decide_False by (intros [? _]; contradiction). reflexivity.
Qed.

Lemma values_copyEntry (dst : HeaderMap) kv c :
  values (copyEntry dst kv) c = values dst c ++ entryFor c kv.
Proof.
  unfold values at 1. rewrite copyEntry_lookup.
  destruct (entryFor c kv); simpl; [|reflexivity].
  fold (values dst c). now rewrite app_nil_r.
Qed.

(** The copy loop, key by key: a destination key receives the values the
    source contributes to it, after the values it already had. *)
Lemma copy_lookup l : forall (dst : HeaderMap) c,
  fold_left copyEntry l dst !! c =
  match copied c l with
  | [] => dst !! c
  | vs => Some (values dst c ++ vs)
  end.
Proof.
  induction l as [|kv l IH]; intros dst c; simpl; [reflexivity|].
  rewrite IH, values_copyEntry, copyEntry_lookup.
  destruct (entryFor c kv) as [|e es]; simpl.
  - now rewrite app_nil_r.
  - destruct (copied c l) as [|x xs]; simpl.
    + now rewrite app_nil_r.
    + now rewrite <- app_assoc.
Qed.

Lemma values_copy l (dst : HeaderMap) c :
  values (fold_left copyEntry l dst) c = values dst c ++ copied c l.
Proof.
  unfold values at 1. rewrite copy_lookup.
  destruct (copied c l); simpl; [|reflexivity].
  fold (values dst c). now rewrite app_nil_r.
Qed.

Lemma entryFor_hop c kv : IsHopByHopHeader c = true -> entryFor c kv = [].
Proof.
  intros Hc. unfold entryFor. destruct (IsHopByHopHeader kv.1) eqn:Hk; [reflexivity|].
  destruct (String.eqb_spec (CanonicalHeaderKey kv.1) c) as [E|E]; [|reflexivity].
  rewrite <- E, IsHopByHopHeader_canonical in Hc. congruence.
Qed.

Lemma copied_hop c l : IsHopByHopHeader c = true -> copied c l = [].
Proof.
  intros Hc. induction l as [|kv l IH]; simpl; [reflexivity|].
  now rewrite entryFor_hop, IH.
Qed.

Lemma copied_app c l1 l2 : copied c (l1 ++ l2) = copied c l1 ++ copied c l2.
Proof.
  induction l1 as [|kv l1 IH]; simpl; [reflexivity|].
  now rewrite IH, app_assoc.
Qed.

Lemma copied_elem c l v :
  v ∈ copied c l ->
  exists k vv, (k, vv) ∈ l /\ v ∈ vv /\ IsHopByHopHeader k = false /\ CanonicalHeaderKey k = c.
Proof.
  induction l as [|[k vv] l IH]; simpl; [intros H; inversion H|].
  rewrite elem_of_app. intros [H|H].
  - unfold entryFor in H. simpl in H.
    destruct (IsHopByHopHeader k) eqn:Hk; [inversion H|].
    destruct (String.eqb_spec (CanonicalHeaderKey k) c) as [E|E]; [|inversion H].
    exists k, vv. repeat split; auto. left.
  - destruct (IH H) as (k' & vv' & Hin & Hv & Hk & Hc).
    exists k', vv'. repeat split; auto. now right.
Qed.

Lemma copied_sublist k vv l :
  (k, vv) ∈ l -> IsHopByHopHeader k = false ->
  vv `sublist_of` copied (CanonicalHeaderKey k) l.
Proof.
  intros Hin Hk. apply list_elem_of_split in Hin as (l1 & l2 & ->).
  rewrite copied_app. simpl. unfold entryFor at 1. simpl.
  rewrite Hk, String.eqb_refl.
  apply sublist_inserts_l, sublist_inserts_r. reflexivity.
Qed.

Lemma copied_absent c l :
  c ∉ l.*1 ->
  Forall (fun kv : string * list string => CanonicalHeaderKey kv.1 = kv.1) l ->
  copied c l = [].
Proof.
  induction l as [|[k vv] l IH]; simpl; [reflexivity|].
  intros Hc Hall. apply not_elem_of_cons in Hc as [Hne Hc].
  apply Forall_cons in Hall as [Hk Hall]. simpl in Hk.
  rewrite IH by assumption. unfold entryFor. simpl. rewrite Hk.
  destruct (IsHopByHopHeader k); [reflexivity|].
  destruct (String.eqb_spec k c); [congruence|reflexivity].
Qed.

(** Over a map with canonical keys a pass of the loop contributes to each
    key exactly the values of that key, and nothing to a hop-by-hop key. *)
Lemma copied_canonical (h : HeaderMap) l c :
  l ≡ₚ map_to_list h ->
  (forall k vv, h !! k = Some vv -> CanonicalHeaderKey k = k) ->
  copied c l = if IsHopByHopHeader c then [] else values h c.
Proof.
  intros Hperm Hcan.
  assert (Hall : Forall (fun kv : string * list string => CanonicalHeaderKey kv.1 = kv.1) l).
  { apply Forall_forall. intros [k vv] Hin. rewrite Hperm in Hin.
    apply elem_of_map_to_list in Hin. simpl. now apply (Hcan k vv). }
  assert (Hnd : NoDup l.*1).
  { rewrite Hperm. apply NoDup_fst_map_to_list. }
  unfold values. destruct (h !! c) as [vv|] eqn:Hc; simpl.
  - assert (Hin : (c, vv) ∈ l) by (rewrite Hperm; now apply elem_of_map_to_list).
    apply list_elem_of_split in Hin as (l1 & l2 & ->).
    rewrite fmap_app, fmap_cons in Hnd. simpl in Hnd.
    apply NoDup_app in Hnd as (_ & Hdisj & Hnd2).
    apply NoDup_cons in Hnd2 as [Hc2 _].
    apply Forall_app in Hall as [Hall1 Hall2].
    apply Forall_cons in Hall2 as [_ Hall2].
    rewrite copied_app. simpl.
    rewrite (copied_absent c l2 Hc2 Hall2), app_nil_r.
    rewrite copied_absent; [|intros Hc1; apply (Hdisj _ Hc1); left|exact Hall1].
    unfold entryFor. simpl. rewrite (Hcan c vv Hc), String.eqb_refl.
    now destruct (IsHopByHopHeader c).
  - rewrite copied_absent; [now destruct (IsHopByHopHeader c)| |exact Hall].
    intros Hin. apply list_elem_of_fmap in Hin as ([k vv] & -> & Hin).
    rewrite Hperm in Hin. apply elem_of_map_to_list in Hin. simpl in Hc. congruence.
Qed.

(** Copying a sanitized header map into an empty one gives it back,
    whatever the order of the walk. *)
Lemma copy_sanitized (h : HeaderMap) l :
  sanitized h -> l ≡ₚ map_to_list h -> fold_left copyEntry l ∅ = h.
Proof.
  intros Hs Hperm. apply map_eq. intros c.
  rewrite copy_lookup, (copied_canonical h l c Hperm).
  2:{ intros k vv Hk. now destruct (Hs k vv Hk) as (? & _). }
  unfold values. rewrite lookup_empty. simpl.
  destruct (h !! c) as [vv|] eqn:Hc; simpl; [|now destruct (IsHopByHopHeader c)].
  destruct (Hs c vv Hc) as (_ & -> & Hne). destruct vv; [contradiction|reflexivity].
Qed.

(** What [CloneHeaderSanitized] returns is sanitized. *)
Lemma CloneHeaderSanitized_sanitized l : sanitized (CloneHeaderSanitized l).
Proof.
  intros c vs. unfold CloneHeaderSanitized, CopyHeadersForClient.
  rewrite copy_lookup, lookup_empty. unfold values. rewrite lookup_empty. simpl.
  destruct (copied c l) as [|x xs] eqn:E; [discriminate|].
  intros [= <-].
  destruct (copied_elem c l x) as (k & vv & _ & _ & Hk & Hc).
  { rewrite E. left. }
  subst c. rewrite CanonicalHeaderKey_idem, IsHopByHopHeader_canonical.
  repeat split; [exact Hk|discriminate].
Qed.

(** C6. Both header-copy operations run the same loop. Whatever the order
    in which the source map is walked: a header is skipped exactly when
    its name is, in any letter case, one of the nine hop-by-hop names;
    every other header of the source arrives with all of its values, in
    order, under its name; the destination gains no value that does not
    come from such a header; and no hop-by-hop key of the destination is
    created or changed, so an output that starts empty holds none. When
    the keys of the source are canonical, as those of a parsed message
    are, each key receives exactly its source values. *)
Theorem copy_headers_strip_hop_by_hop
    (src dst : HeaderMap) (order : list (string * list string)) :
  order ≡ₚ map_to_list src ->
  CopyHeadersForClient dst order = CopyHeadersForUpstream dst order /\
  (forall k, IsHopByHopHeader k = true <->
     exists n, In n hopByHopHeaders /\ equalFold k n) /\
  length hopByHopHeaders = 9%nat /\
  (forall k vv, src !! k = Some vv -> IsHopByHopHeader k = false ->
     vv `sublist_of` Values (CopyHeadersForUpstream dst order) k) /\
  (forall k v, v ∈ Values (CopyHeadersForUpstream dst order) k ->
     v ∈ Values dst k \/
     exists k' vv, src !! k' = Some vv /\ v ∈ vv /\
       IsHopByHopHeader k' = false /\ equalFold k' k) /\
  (forall k, IsHopByHopHeader k = true ->
     CopyHeadersForUpstream dst order !! k = dst !! k) /\
  ((forall k vv, src !! k = Some vv -> CanonicalHeaderKey k = k) ->
   forall k, values (CopyHeadersForUpstream dst order) k =
             values dst k ++ if IsHopByHopHeader k then [] else values src k).
Proof.
  intros Hperm. unfold CopyHeadersForClient, CopyHeadersForUpstream, Values.
  split; [reflexivity|].
  split; [exact IsHopByHopHeader_iff|].
  split; [reflexivity|].
  split; [|split; [|split]].
  - intros k vv Hk Hhop. rewrite values_copy.
    apply sublist_inserts_l, copied_sublist; [|exact Hhop].
    rewrite Hperm. now apply elem_of_map_to_list.
  - intros k v. rewrite values_copy, elem_of_app. intros [H|H]; [now left|right].
    destruct (copied_elem _ _ _ H) as (k' & vv & Hin & Hv & Hhop & Hc).
    exists k', vv. rewrite Hperm in Hin. apply elem_of_map_to_list in Hin.
    repeat split; auto. now apply CanonicalHeaderKey_same_fold.
  - intros k Hhop. now rewrite copy_lookup, copied_hop.
  - intros Hcan k. rewrite values_copy. f_equal. now apply copied_canonical.
Qed.

Lemma copy_headers_strip_hop_by_hop_witness :
  CopyHeadersForUpstream ∅ (map_to_list Sample.okHeader) =
    {[ "Content-Type"%string := ["application/json"%string] ]} /\
  CopyHeadersForUpstream ∅ (map_to_list Sample.okHeader) !! "Connection"%string = None.
Proof.
  destruct (copy_headers_strip_hop_by_hop Sample.okHeader ∅ (map_to_list Sample.okHeader))
    as (_ & _ & _ & _ & _ & Hhop & _).
  - reflexivity.
  - split; [reflexivity|].
    rewrite (Hhop "Connection"%string); reflexivity.
Defined.

(** ** The cache *)

Lemma Get_found key now c v :
  Get key now c = ((v, true), c) <->
  data c !! key = Some v /\ (ExpireAt v = 0 \/ now <= ExpireAt v).
Proof.
  unfold Get, IsZero, After.
  destruct (data c !! key) as [v'|] eqn:Hk.
  - destruct (Z.eqb_spec (ExpireAt v') 0) as [Hz|Hz]; simpl.
    + split.
      * intros [= <-]. split; [reflexivity|now left].
      * intros [[= <-] _]. reflexivity.
    + destruct (Z.ltb_spec (ExpireAt v') now) as [Hlt|Hge].
      * split; [discriminate|]. intros [[= <-] [?|?]]; lia.
      * split.
        -- intros [= <-]. split; [reflexivity|now right].
        -- intros [[= <-] _]. reflexivity.
  - split; [discriminate|]. intros [[=] _].
Qed.

Lemma Get_not_found key now c :
  (Get key now c).1.2 = false <->
  ~ exists v, data c !! key = Some v /\ (ExpireAt v = 0 \/ now <= ExpireAt v).
Proof.
  split.
  - intros Hf (v & Hv). apply Get_found in Hv. rewrite Hv in Hf. discriminate.
  - intros Hn. unfold Get, IsZero, After.
    destruct (data c !! key) as [v|] eqn:Hk; [|reflexivity].
    destruct (Z.eqb_spec (ExpireAt v) 0) as [Hz|Hz]; simpl.
    + exfalso. apply Hn. exists v. split; [reflexivity|now left].
    + destruct (Z.ltb_spec (ExpireAt v) now) as [Hlt|Hge]; [reflexivity|].
      exfalso. apply Hn. exists v. split; [reflexivity|now right].
Qed.

Lemma Get_store key now c : (Get key now c).2 = c.
Proof.
  unfold Get. destruct (data c !! key) as [v|]; [|reflexivity].
  now destruct (negb (IsZero (ExpireAt v)) && After now (ExpireAt v)).
Qed.

Lemma Get_result key now c :
  Get key now c = ((Get key now c).1, c).
Proof. rewrite <- (Get_store key now c) at 3. now destruct (Get key now c). Qed.

Lemma Get_Set_same key value now c :
  ExpireAt value = 0 \/ now <= ExpireAt value ->
  Get key now (Set_ key value c).2 = ((value, true), (Set_ key value c).2).
Proof.
  intros H. apply Get_found. simpl. now rewrite lookup_insert_eq.
Qed.

(** C4, amended at the instant of expiry. [Get] reports an entry found
    exactly when the key is present and its [ExpireAt] is zero or not
    before the time of the lookup, and then returns that entry; in every
    other case it reports not found. An entry is never returned once the
    clock is past its non-zero [ExpireAt], although it is still in the
    map. In particular an entry stored with a positive TTL is found
    strictly before [savedAt + TTL] and not found after it. *)
Theorem Get_found_iff_live (key : string) (now : Time) (c : Cache) :
  (forall v, Get key now c = ((v, true), c) <->
     data c !! key = Some v /\ (IsZero (ExpireAt v) = true \/ now <= ExpireAt v)) /\
  ((Get key now c).1.2 = true <->
     exists v, data c !! key = Some v /\ (IsZero (ExpireAt v) = true \/ now <= ExpireAt v)) /\
  (forall v, (Get key now c).1 = (v, true) ->
     ~ (IsZero (ExpireAt v) = false /\ ExpireAt v < now)) /\
  (forall v, data c !! key = Some v -> IsZero (ExpireAt v) = false ->
     ExpireAt v < now -> (Get key now c).1.2 = false) /\
  (forall (value : Response) (savedAt : Time) (TTL : Duration),
     0 <= savedAt -> 0 < TTL ->
     let entry := {| Status := Status value; Header := Header value;
                     Body := Body value; SavedAt := savedAt;
                     ExpireAt := ZeroOrExpiry savedAt TTL |} in
     (now < savedAt + TTL -> Get key now (Set_ key entry c).2 = ((entry, true), (Set_ key entry c).2)) /\
     (savedAt + TTL < now -> (Get key now (Set_ key entry c).2).1.2 = false)).
Proof.
  assert (Hz : forall v : Response, IsZero (ExpireAt v) = true <-> ExpireAt v = 0).
  { intros v. unfold IsZero. apply Z.eqb_eq. }
  split; [|split; [|split; [|split]]].
  - intros v. rewrite Hz. apply Get_found.
  - split.
    + intros Hf. destruct (Get key now c) as [[v b] c'] eqn:E. simpl in Hf. subst b.
      pose proof (Get_store key now c) as Hc. rewrite E in Hc. simpl in Hc. subst c'.
      apply Get_found in E. exists v. now rewrite Hz.
    + intros (v & Hv & Hlive). rewrite Hz in Hlive.
      now rewrite (proj2 (Get_found key now c v) (conj Hv Hlive)).
  - intros v Hv [Hnz Hlt].
    pose proof (Get_result key now c) as E. rewrite Hv in E.
    apply Get_found in E as [_ [E|E]]; [|lia].
    apply Hz in E. congruence.
  - intros v Hv Hnz Hlt. apply Get_not_found. intros (v' & Hv' & Hlive).
    assert (v' = v) as -> by congruence.
    destruct Hlive as [E|E]; [|lia]. apply Hz in E. congruence.
  - intros value savedAt TTL Hs Ht entry.
    assert (He : ExpireAt entry = savedAt + TTL).
    { simpl. unfold ZeroOrExpiry, TimeAdd. destruct (Z.leb_spec TTL 0); [lia|reflexivity]. }
    split.
    + intros Hlt. apply Get_Set_same. right. lia.
    + intros Hlt. apply Get_not_found. intros (v' & Hv' & Hlive).
      simpl in Hv'. rewrite lookup_insert_eq in Hv'. injection Hv' as <-.
      rewrite He in Hlive. lia.
Qed.

(** With the strict [now < expireAt] for a live entry the equivalence
    fails at the instant [now = expireAt]: the code tests
    [time.Now().After(v.ExpireAt)], which is false there, and returns the
    entry. *)
Lemma Get_found_at_expiry_instant :
  ~ (forall (key : string) (now : Time) (c : Cache),
       (Get key now c).1.2 = true <->
       exists v, data c !! key = Some v /\
                 (IsZero (ExpireAt v) = true \/ now < ExpireAt v)).
Proof.
  intros H.
  pose (v := {| Status := 200; Header := ∅; Body := "ok"; SavedAt := 50; ExpireAt := 100 |}).
  destruct (proj1 (H "k"%string 100 {| data := {[ "k"%string := v ]} |})) as (v' & Hv' & Hlive).
  { reflexivity. }
  simpl in Hv'. rewrite lookup_singleton_eq in Hv'. injection Hv' as <-.
  destruct Hlive as [E|E]; [discriminate E|simpl in E; lia].
Qed.

(** Stored at instant 1000 with a TTL of 100: found 50 later, not found
    150 later, still in the map. *)
Example ttl_test :
  let entry := {| Status := 200; Header := ∅; Body := "response";
                  SavedAt := 1000; ExpireAt := ZeroOrExpiry 1000 100 |} in
  let c := (Set_ "GET /ttl-test?" entry New).2 in
  (Get "GET /ttl-test?" 1050 c).1 = (entry, true) /\
  (Get "GET /ttl-test?" 1150 c).1 = (zeroResponse, false) /\
  (Size (Get "GET /ttl-test?" 1150 c).2).1 = 1.
Proof. repeat split. Qed.

(** C9. [Get] leaves the cache as it found it, whether the key is
    missing, live or expired: the map and its [Size] are the same after
    the call, an expired entry stays in the map, and for it [Get] returns
    the zero [Response] and [false], not the stored value. *)
Theorem Get_leaves_store_unchanged (key : string) (now : Time) (c : Cache) :
  (Get key now c).2 = c /\
  data (Get key now c).2 = data c /\
  (Size (Get key now c).2).1 = (Size c).1 /\
  (Size c).2 = c /\
  (data c !! key = None -> (Get key now c).1 = (zeroResponse, false)) /\
  (forall v, data c !! key = Some v ->
     IsZero (ExpireAt v) = false -> After now (ExpireAt v) = true ->
     (Get key now c).1 = (zeroResponse, false) /\
     data (Get key now c).2 !! key = Some v /\
     (Size (Get key now c).2).1 = Z.of_nat (size (data c))).
Proof.
  rewrite Get_store. split; [reflexivity|]. split; [reflexivity|].
  split; [reflexivity|]. split; [reflexivity|]. split.
  - intros Hk. unfold Get. now rewrite Hk.
  - intros v Hv Hnz Hafter. split; [|split; [exact Hv|reflexivity]].
    unfold Get. now rewrite Hv, Hnz, Hafter.
Qed.

(** ** The deadline of the upstream request *)

(** C8. With a clock that does not run backwards, the context returned
    for a parent context and a timeout [d] has a deadline, and it is the
    earlier of the parent's deadline, when it has one, and [now + d]; so
    it is never later than the caller's deadline nor than the configured
    budget. This is the context of the request sent upstream. *)
Theorem upstream_deadline_is_minimum
    (parent : Context) (d : Duration) (now1 now2 : Time) :
  now1 <= now2 ->
  let ctx := RequestContextWithTimeout now1 now2 parent d in
  Deadline ctx =
    Some (match Deadline parent with
          | Some deadline => Z.min deadline (now2 + d)
          | None => now2 + d
          end) /\
  (forall t, Deadline ctx = Some t ->
     t <= now2 + d /\ forall deadline, Deadline parent = Some deadline -> t <= deadline) /\
  (forall p env r, ReqContext r = parent -> timeout p = d ->
     nowUntil env = now1 -> nowTimeout env = now2 ->
     OutContext (upstreamRequest p env r) = ctx).
Proof.
  intros Hclock ctx.
  assert (Hd : Deadline ctx =
    Some (match Deadline parent with
          | Some deadline => Z.min deadline (now2 + d)
          | None => now2 + d
          end)).
  { unfold ctx, RequestContextWithTimeout, WithTimeout, WithDeadline, Until, Before, TimeAdd.
    destruct parent as [[deadline|]]; simpl; [|reflexivity].
    destruct (Z.ltb_spec (deadline - now1) d).
    - simpl. f_equal. lia.
    - destruct (Z.ltb_spec deadline (now2 + d)); simpl; f_equal; lia. }
  split; [exact Hd|]. split.
  - intros t Ht. rewrite Hd in Ht. injection Ht as <-.
    destruct (Deadline parent) as [deadline|].
    + split; [lia|]. intros ? [= <-]. lia.
    + split; [lia|]. intros ? [=].
  - intros p env r <- <- <- <-. reflexivity.
Qed.

Lemma upstream_deadline_is_minimum_witness :
  Deadline (RequestContextWithTimeout 10 11 {| Deadline := Some 500 |} 1000) =
  Some (Z.min 500 (11 + 1000)).
Proof.
  apply (upstream_deadline_is_minimum {| Deadline := Some 500 |} 1000 10 11). lia.
Defined.

(** ** The cache key *)

Lemma str_app_cons c s t : String c s +:+ t = String c (s +:+ t).
Proof. reflexivity. Qed.

Lemma str_app_nil_l s : "" +:+ s = s.
Proof. reflexivity. Qed.

Lemma str_app_nil_r s : s +:+ "" = s.
Proof. induction s as [|c s IH]; [reflexivity|now rewrite str_app_cons, IH]. Qed.

Lemma str_app_assoc s t u : (s +:+ t) +:+ u = s +:+ t +:+ u.
Proof. induction s as [|c s IH]; [reflexivity|now rewrite !str_app_cons, IH]. Qed.

Lemma str_app_inv_head s t u : s +:+ t = s +:+ u -> t = u.
Proof.
  induction s as [|c s IH]; [now rewrite !str_app_nil_l|].
  rewrite !str_app_cons. intros [= H]. auto.
Qed.

Lemma str_length_app s t : String.length (s +:+ t) = (String.length s + String.length t)%nat.
Proof.
  induction s as [|c s IH]; [reflexivity|].
  rewrite str_app_cons. simpl. now rewrite IH.
Qed.

Lemma str_app_inv_tail s t u : s +:+ u = t +:+ u -> s = t.
Proof.
  intros H.
  assert (Hlen : String.length s = String.length t).
  { apply (f_equal String.length) in H. rewrite !str_length_app in H. lia. }
  revert t H Hlen. induction s as [|c s IH]; intros [|c' t]; simpl; try discriminate.
  - reflexivity.
  - rewrite !str_app_cons. intros [= -> H] [= Hlen]. f_equal. now apply IH.
Qed.

Lemma cacheKeyStep_segment r key h : cacheKeyStep r key h = key +:+ keySegment r h.
Proof.
  unfold cacheKeyStep, keySegment. cbv zeta.
  destruct (String.eqb (HGet (ReqHeader r) h) ""); simpl; [now rewrite str_app_nil_r|reflexivity].
Qed.

Lemma cacheKey_fold r l : forall key,
  fold_left (cacheKeyStep r) l key = key +:+ concatAll (map (keySegment r) l).
Proof.
  induction l as [|h l IH]; intros key; simpl.
  - now rewrite str_app_nil_r.
  - now rewrite IH, cacheKeyStep_segment, str_app_assoc.
Qed.

Lemma cacheKey_keyFormat p r : cacheKey p r = keyFormat p r.
Proof.
  unfold cacheKey, keyFormat. rewrite cacheKey_fold.
  now rewrite !str_app_assoc.
Qed.

Lemma keySegment_ext r1 r2 h :
  HGet (ReqHeader r1) h = HGet (ReqHeader r2) h -> keySegment r1 h = keySegment r2 h.
Proof. unfold keySegment. now intros ->. Qed.

Lemma keySegment_inj r1 r2 h :
  keySegment r1 h = keySegment r2 h -> HGet (ReqHeader r1) h = HGet (ReqHeader r2) h.
Proof.
  unfold keySegment.
  destruct (String.eqb_spec (HGet (ReqHeader r1) h) "") as [E1|E1];
  destruct (String.eqb_spec (HGet (ReqHeader r2) h) "") as [E2|E2];
    try congruence; try discriminate.
  intros H. now do 3 apply str_app_inv_head in H.
Qed.

Lemma segments_ext r1 r2 l :
  (forall h, In h l -> HGet (ReqHeader r1) h = HGet (ReqHeader r2) h) ->
  concatAll (map (keySegment r1) l) = concatAll (map (keySegment r2) l).
Proof.
  induction l as [|h l IH]; simpl; [reflexivity|].
  intros H. rewrite IH by auto. f_equal. apply keySegment_ext. auto.
Qed.

Lemma concatAll_app l1 l2 : concatAll (l1 ++ l2) = concatAll l1 +:+ concatAll l2.
Proof.
  induction l1 as [|s l1 IH]; simpl; [reflexivity|].
  now rewrite IH, str_app_assoc.
Qed.

Lemma HGet_equalFold (h : HeaderMap) name name' :
  isToken name = true -> equalFold name name' -> HGet h name = HGet h name'.
Proof.
  intros Ht Hf. unfold HGet, Values.
  now rewrite (CanonicalHeaderKey_equalFold name name' Ht Hf).
Qed.

(** C5, with the sensitivity narrowed to one header. The key is
    [<METHOD> <path>?<rawQuery>] followed, for each configured header name
    in order, by [|<HeaderName>:<value>] when the request has a non-empty
    value for it and by nothing otherwise; the lookup of a header name
    does not depend on letter case. Hence requests with the same method,
    path, query and configured-header values have the same key; and two
    requests with the same method, path and query that differ in the
    value of one configured header and agree on the others have different
    keys. *)
Theorem cacheKey_format_and_sensitivity (p : Proxy) (r : Request) :
  cacheKey p r =
    Method r +:+ " " +:+ Path (ReqURL r) +:+ "?" +:+ RawQuery (ReqURL r) +:+
    concatAll (map (fun headerName =>
                     if String.eqb (HGet (ReqHeader r) headerName) "" then ""
                     else "|" +:+ headerName +:+ ":" +:+ HGet (ReqHeader r) headerName)
                   (keyHeaders p)) /\
  cacheKey p r = keyFormat p r /\
  (forall name name', isToken name = true -> equalFold name name' ->
     HGet (ReqHeader r) name = HGet (ReqHeader r) name') /\
  (forall r', Method r = Method r' -> Path (ReqURL r) = Path (ReqURL r') ->
     RawQuery (ReqURL r) = RawQuery (ReqURL r') ->
     (forall h, In h (keyHeaders p) -> HGet (ReqHeader r) h = HGet (ReqHeader r') h) ->
     cacheKey p r = cacheKey p r') /\
  (forall r' before h after,
     keyHeaders p = before ++ h :: after ->
     Method r = Method r' -> Path (ReqURL r) = Path (ReqURL r') ->
     RawQuery (ReqURL r) = RawQuery (ReqURL r') ->
     (forall h', In h' (before ++ after) -> HGet (ReqHeader r) h' = HGet (ReqHeader r') h') ->
     HGet (ReqHeader r) h <> HGet (ReqHeader r') h ->
     cacheKey p r <> cacheKey p r').
Proof.
  split; [|split; [|split; [|split]]].
  - apply cacheKey_keyFormat.
  - apply cacheKey_keyFormat.
  - intros name name'. apply HGet_equalFold.
  - intros r' Hm Hp Hq Hh. rewrite !cacheKey_keyFormat. unfold keyFormat.
    now rewrite Hm, Hp, Hq, (segments_ext r r' _ Hh).
  - intros r' before h after Hk Hm Hp Hq Hothers Hdiff.
    rewrite !cacheKey_keyFormat. unfold keyFormat.
    rewrite Hk, Hm, Hp, Hq, !map_app, !concatAll_app. simpl.
    rewrite (segments_ext r r' before), (segments_ext r r' after).
    2:{ intros h' Hin. apply Hothers, in_or_app. now right. }
    2:{ intros h' Hin. apply Hothers, in_or_app. now left. }
    intros H. do 6 apply str_app_inv_head in H.
    apply str_app_inv_tail in H. now apply Hdiff, keySegment_inj.
Qed.

(** It is not so that any difference in an included header value gives a
    different key: values are written into the key unescaped, so a value
    that contains the text of the next segment gives the key of another
    request. *)
Lemma cacheKey_collision :
  ~ (forall (p : Proxy) (r r' : Request),
       Method r = Method r' -> Path (ReqURL r) = Path (ReqURL r') ->
       RawQuery (ReqURL r) = RawQuery (ReqURL r') ->
       (exists h, In h (keyHeaders p) /\ HGet (ReqHeader r) h <> HGet (ReqHeader r') h) ->
       cacheKey p r <> cacheKey p r').
Proof.
  intros H.
  apply (H Sample.proxy
           (Sample.request "GET" {[ "X-Tenant-Id"%string := ["a|Authorization:b"%string] ]})
           (Sample.request "GET" {[ "X-Tenant-Id"%string := ["a"%string];
                                    "Authorization"%string := ["b"%string] ]}));
    try reflexivity.
  exists "X-Tenant-ID"%string. split; [now left|].
  vm_compute. discriminate.
Qed.

(** The keys the tests of the proxy expect. *)
Example cacheKey_with_header :
  cacheKey {| upstream := upstream Sample.proxy; timeout := 0; ttl := 0;
              keyHeaders := ["authorization"%string] |}
           {| Method := "GET";
              ReqURL := {| Scheme := ""; Host := ""; Path := "/api/data"; RawQuery := "" |};
              ReqHeader := {[ "Authorization"%string := ["Bearer token1"%string] ]};
              ReqBody := ""; ReqContext := {| Deadline := None |} |}
  = "GET /api/data?|authorization:Bearer token1"%string.
Proof. reflexivity. Qed.

Example cacheKey_without_headers :
  cacheKey Sample.proxy (Sample.request "GET" {[ "Accept"%string := ["*/*"%string] ]})
  = "GET /users?page=1"%string.
Proof. reflexivity. Qed.

(** ** The handler, case by case *)

Lemma httpError_fresh message code :
  httpError newRecorder message code =
  {| wHeader := errorHeader; wCode := Some code; wBody := message +:+ String "010" "" |}.
Proof. reflexivity. Qed.

Lemma tryServeFromCache_hit p env w r key cause c v :
  Get key (nowGet env) c = ((v, true), c) ->
  tryServeFromCache p env w r key cause c =
  (Write (WriteHeader
            (withHeader w (backupHeader env
               (CopyHeadersForClient (wHeader w) (rangeOrder env (Header v))) (SavedAt v)))
            (Status v))
         (Body v), c).
Proof. intros H. unfold tryServeFromCache. rewrite H. reflexivity. Qed.

Lemma tryServeFromCache_miss p env w r key cause c :
  (Get key (nowGet env) c).1.2 = false ->
  tryServeFromCache p env w r key cause c =
  (httpError w ("Bad Gateway (no cached backup): " +:+ cause) StatusBadGateway, c).
Proof.
  intros H. unfold tryServeFromCache. rewrite (Get_result key (nowGet env) c).
  destruct (Get key (nowGet env) c).1 as [v ok]. simpl in H. subst ok. reflexivity.
Qed.

Lemma tryServeFromCache_store p env w r key cause c :
  (tryServeFromCache p env w r key cause c).2 = c.
Proof.
  unfold tryServeFromCache. rewrite (Get_result key (nowGet env) c).
  destruct (Get key (nowGet env) c).1 as [v []]; reflexivity.
Qed.

Lemma ServeHTTP_Failed p env w r c err cause :
  attempt p env r = Failed err cause ->
  ServeHTTP p env w r c =
  if isCacheable r
  then tryServeFromCache p env w r (cacheKey p r) cause c
  else (httpError w ("Bad Gateway: " +:+ err) StatusBadGateway, c).
Proof.
  unfold attempt, ServeHTTP.
  destruct (newRequestErr env (Method r) (upstreamURL p r)) as [e|].
  - intros [= <- <-]. now destruct (isCacheable r).
  - destruct (clientDo env (upstreamRequest p env r)) as [e|st h [b|e]].
    + intros [= <- <-]. now destruct (isCacheable r).
    + discriminate.
    + intros [= <- <-]. now destruct (isCacheable r).
Qed.

Lemma ServeHTTP_Answered p env w r c st h b :
  attempt p env r = Answered st h b ->
  ServeHTTP p env w r c =
  if (500 <=? st) && isCacheable r
  then tryServeFromCache p env w r (cacheKey p r) ("upstream status " +:+ pretty st) c
  else
    (Write (WriteHeader
              (withHeader w
                 (HSet (HSet (CopyHeadersForClient (wHeader w) (rangeOrder env h))
                             "X-Served-By" "Aegis")
                       "X-Cache" (passStatus (isCacheable r) st)))
              st) b,
     if isCacheable r && (200 <=? st) && (st <=? 299)
     then {| data := <[cacheKey p r :=
                        {| Status := st;
                           Header := CloneHeaderSanitized (rangeOrder env h);
                           Body := b;
                           SavedAt := nowSaved env;
                           ExpireAt := ZeroOrExpiry (nowExpiry env) (ttl p) |}]> (data c) |}
     else c).
Proof.
  unfold attempt, ServeHTTP, passStatus.
  destruct (newRequestErr env (Method r) (upstreamURL p r)) as [e|]; [discriminate|].
  destruct (clientDo env (upstreamRequest p env r)) as [e|st' h' [b'|e]]; try discriminate.
  intros [= -> -> ->].
  destruct (isCacheable r); simpl.
  - destruct (500 <=? st); simpl; [reflexivity|].
    destruct ((200 <=? st) && (st <=? 299)); reflexivity.
  - rewrite andb_false_r. reflexivity.
Qed.

(** The store after a request is the store before it, unless the request
    is cacheable and answered with a status from 200 to 299. *)
Lemma ServeHTTP_store p env w r c :
  (ServeHTTP p env w r c).2 =
  match attempt p env r with
  | Answered st h b =>
      if isCacheable r && (200 <=? st) && (st <=? 299)
      then {| data := <[cacheKey p r :=
                         {| Status := st;
                            Header := CloneHeaderSanitized (rangeOrder env h);
                            Body := b;
                            SavedAt := nowSaved env;
                            ExpireAt := ZeroOrExpiry (nowExpiry env) (ttl p) |}]> (data c) |}
      else c
  | Failed _ _ => c
  end.
Proof.
  destruct (attempt p env r) as [err cause|st h b] eqn:E.
  - rewrite (ServeHTTP_Failed _ _ _ _ _ _ _ E).
    destruct (isCacheable r); [apply tryServeFromCache_store|reflexivity].
  - rewrite (ServeHTTP_Answered _ _ _ _ _ _ _ _ E).
    destruct (isCacheable r); simpl.
    + destruct (Z.leb_spec 500 st); simpl.
      * rewrite tryServeFromCache_store.
        destruct (Z.leb_spec 200 st); simpl; [|reflexivity].
        destruct (Z.leb_spec st 299); [lia|reflexivity].
      * reflexivity.
    + rewrite andb_false_r. reflexivity.
Qed.

(** The handler keeps the headers of the store sanitized. *)
Lemma ServeHTTP_storeSanitized p env w r c :
  storeSanitized c -> storeSanitized (ServeHTTP p env w r c).2.
Proof.
  intros Hc. rewrite ServeHTTP_store.
  destruct (attempt p env r) as [err cause|st h b]; [exact Hc|].
  destruct (isCacheable r && (200 <=? st) && (st <=? 299)); [|exact Hc].
  intros key v. simpl. rewrite lookup_insert.
  case_decide; [|apply Hc].
  intros [= <-]. simpl. apply CloneHeaderSanitized_sanitized.
Qed.

Lemma New_storeSanitized : storeSanitized New.
Proof. intros key v. simpl. now rewrite lookup_empty. Qed.

Lemma Values_HSet_same (h : HeaderMap) name v :
  Values (HSet h name v) name = [v].
Proof. unfold Values, values, HSet. now rewrite lookup_insert_eq. Qed.

Lemma Values_HSet_other (h : HeaderMap) name name' v :
  CanonicalHeaderKey name <> CanonicalHeaderKey name' ->
  Values (HSet h name v) name' = Values h name'.
Proof. intros Hne. unfold Values, values, HSet. now rewrite lookup_insert_ne. Qed.

Lemma backupHeader_annotations env (h : HeaderMap) savedAt :
  Values (backupHeader env h savedAt) "X-Served-By" = ["Aegis"%string] /\
  Values (backupHeader env h savedAt) "X-Cache" = ["HIT-BACKUP"%string] /\
  Values (backupHeader env h savedAt) "X-Backup-Saved-At" = [formatRFC3339 env savedAt].
Proof.
  unfold backupHeader. repeat split.
  - rewrite !Values_HSet_other by (vm_compute; discriminate). apply Values_HSet_same.
  - rewrite Values_HSet_other by (vm_compute; discriminate). apply Values_HSet_same.
  - apply Values_HSet_same.
Qed.

Lemma ServeHTTP_failure p env w r c cause :
  isCacheable r = true ->
  failureCause p env r = Some cause ->
  ServeHTTP p env w r c = tryServeFromCache p env w r (cacheKey p r) cause c.
Proof.
  intros Hc. unfold failureCause.
  destruct (attempt p env r) as [err cause'|st h b] eqn:E.
  - intros [= <-]. now rewrite (ServeHTTP_Failed _ _ _ _ _ _ _ E), Hc.
  - destruct (500 <=? st) eqn:Hst; [|discriminate]. intros [= <-].
    now rewrite (ServeHTTP_Answered _ _ _ _ _ _ _ _ E), Hst, Hc.
Qed.

(** A failed attempt of a cacheable request is answered from the cache
    when the key has a live entry. *)
Lemma Handle_backup_hit p env r c cause v :
  isCacheable r = true ->
  failureCause p env r = Some cause ->
  Get (cacheKey p r) (nowGet env) c = ((v, true), c) ->
  Handle p env r c =
  ({| wHeader := backupHeader env
                   (CopyHeadersForClient ∅ (rangeOrder env (Header v))) (SavedAt v);
      wCode := Some (Status v);
      wBody := Body v |}, c).
Proof.
  intros Hc Hf Hget. unfold Handle.
  rewrite (ServeHTTP_failure _ _ _ _ _ _ Hc Hf).
  now rewrite (tryServeFromCache_hit _ _ _ _ _ _ _ _ Hget).
Qed.

Lemma Handle_backup_miss p env r c cause :
  isCacheable r = true ->
  failureCause p env r = Some cause ->
  (Get (cacheKey p r) (nowGet env) c).1.2 = false ->
  Handle p env r c =
  (badGateway ("Bad Gateway (no cached backup): " +:+ cause), c).
Proof.
  intros Hc Hf Hget. unfold Handle.
  rewrite (ServeHTTP_failure _ _ _ _ _ _ Hc Hf).
  now rewrite (tryServeFromCache_miss _ _ _ _ _ _ _ Hget).
Qed.

Lemma Handle_stored p env r c st h b :
  isCacheable r = true ->
  attempt p env r = Answered st h b ->
  200 <= st <= 299 ->
  Handle p env r c =
  ({| wHeader := HSet (HSet (CopyHeadersForClient ∅ (rangeOrder env h))
                            "X-Served-By" "Aegis") "X-Cache" "MISS";
      wCode := Some st;
      wBody := b |},
   {| data := <[cacheKey p r :=
                  {| Status := st;
                     Header := CloneHeaderSanitized (rangeOrder env h);
                     Body := b;
                     SavedAt := nowSaved env;
                     ExpireAt := ZeroOrExpiry (nowExpiry env) (ttl p) |}]> (data c) |}).
Proof.
  intros Hc E Hst. unfold Handle.
  rewrite (ServeHTTP_Answered _ _ _ _ _ _ _ _ E), Hc. unfold passStatus.
  destruct (Z.leb_spec 500 st); [lia|].
  destruct (Z.leb_spec 200 st); [|lia].
  destruct (Z.leb_spec st 299); [|lia].
  reflexivity.
Qed.

(** ** Expiry of what the handler stores *)

(** C10. A TTL that is negative gives the same expiry as TTL 0, the zero
    time; an entry stored with it is found by every later lookup, and so
    is the entry that a proxy configured with such a TTL stores for a
    cacheable request answered with a status from 200 to 299. *)
Theorem negative_ttl_never_expires (TTL : Duration) (now : Time) :
  TTL <= 0 ->
  ZeroOrExpiry now TTL = ZeroOrExpiry now 0 /\
  IsZero (ZeroOrExpiry now TTL) = true /\
  (forall (key : string) (value : Response) (c : Cache) (later : Time),
    let entry := {| Status := Status value; Header := Header value;
                    Body := Body value; SavedAt := now;
                    ExpireAt := ZeroOrExpiry now TTL |} in
    Get key later (Set_ key entry c).2 = ((entry, true), (Set_ key entry c).2)) /\
  (forall p env r c st h b (later : Time),
    ttl p = TTL -> nowExpiry env = now ->
    isCacheable r = true -> attempt p env r = Answered st h b -> 200 <= st <= 299 ->
    exists entry,
      Get (cacheKey p r) later (Handle p env r c).2 = ((entry, true), (Handle p env r c).2) /\
      Status entry = st /\ Body entry = b /\ IsZero (ExpireAt entry) = true).
Proof.
  intros Hneg.
  assert (E : forall t, ZeroOrExpiry t TTL = 0).
  { intros t. unfold ZeroOrExpiry. destruct (Z.leb_spec TTL 0); [reflexivity|lia]. }
  rewrite E. split; [reflexivity|]. split; [reflexivity|]. split.
  - intros key value c later entry. apply Get_Set_same. now left.
  - intros p env r c st h b later Httl Hnow Hc Ha Hst.
    rewrite (Handle_stored _ _ _ _ _ _ _ Hc Ha Hst). simpl.
    rewrite Httl, E.
    eexists. split.
    + apply (Get_Set_same (cacheKey p r) _ later c). now left.
    + split; [reflexivity|]. split; reflexivity.
Qed.

Lemma negative_ttl_never_expires_witness :
  ZeroOrExpiry 1000 (-5) = ZeroOrExpiry 1000 0 /\
  IsZero (ZeroOrExpiry 1000 (-5)) = true.
Proof.
  destruct (negative_ttl_never_expires (-5) 1000) as (H1 & H2 & _); [lia|].
  split; [exact H1|exact H2].
Defined.

(** ** Fail-over *)

(** C1. When the upstream attempt of a cacheable request fails (build
    error, transport error, body-read error or status 500 and above) the
    cache key is looked up. If the key has an unexpired entry, the
    response has the stored status and body and the stored headers, with
    [X-Served-By], [X-Cache: HIT-BACKUP] and [X-Backup-Saved-At] (the
    entry's save time) set on them, and the cache is left as it was. If
    no entry is found, the response is a 502 whose body is
    ["Bad Gateway (no cached backup): "] followed by the cause. In
    particular, when a first request was answered 200 and stored, and the
    same request then fails while the entry is unexpired, the second
    response has status 200, the body of the first and
    [X-Cache: HIT-BACKUP]. *)
Theorem failed_attempt_served_from_backup
    (p : Proxy) (env : Env) (r : Request) (c : Cache) (cause : string) :
  isCacheable r = true ->
  failureCause p env r = Some cause ->
  rangeSound env ->
  (forall v, data c !! cacheKey p r = Some v ->
     IsZero (ExpireAt v) = true \/ nowGet env <= ExpireAt v ->
     sanitized (Header v) ->
     Handle p env r c =
     ({| wHeader := HSet (HSet (HSet (Header v) "X-Served-By" "Aegis")
                               "X-Cache" "HIT-BACKUP")
                         "X-Backup-Saved-At" (formatRFC3339 env (SavedAt v));
         wCode := Some (Status v);
         wBody := Body v |}, c)) /\
  ((Get (cacheKey p r) (nowGet env) c).1.2 = false ->
     Handle p env r c =
     ({| wHeader := errorHeader;
         wCode := Some 502;
         wBody := "Bad Gateway (no cached backup): " +:+ cause +:+ String "010" "" |}, c)) /\
  (forall env0 c0 h0 body0,
     attempt p env0 r = Answered 200 h0 body0 ->
     ttl p <= 0 \/ nowGet env <= nowExpiry env0 + ttl p ->
     let first := Handle p env0 r c0 in
     let second := Handle p env r first.2 in
     wCode first.1 = Some 200 /\ wBody first.1 = body0 /\
     wCode second.1 = Some 200 /\ wBody second.1 = body0 /\
     Values (wHeader second.1) "X-Cache" = ["HIT-BACKUP"%string] /\
     wHeader second.1 =
       backupHeader env (CloneHeaderSanitized (rangeOrder env0 h0)) (nowSaved env0) /\
     second.2 = first.2).
Proof.
  intros Hc Hf Hrange. split; [|split].
  - intros v Hv Hlive Hsan.
    assert (Hget : Get (cacheKey p r) (nowGet env) c = ((v, true), c)).
    { apply Get_found. split; [exact Hv|].
      destruct Hlive as [Hz|Hle]; [left|now right].
      unfold IsZero in Hz. now apply Z.eqb_eq. }
    rewrite (Handle_backup_hit _ _ _ _ _ _ Hc Hf Hget).
    unfold CopyHeadersForClient. now rewrite (copy_sanitized _ _ Hsan (Hrange _)).
  - intros Hmiss. rewrite (Handle_backup_miss _ _ _ _ _ Hc Hf Hmiss).
    unfold badGateway. now rewrite str_app_assoc.
  - intros env0 c0 h0 body0 E Hlive first second.
    assert (Hfirst : first = Handle p env0 r c0) by reflexivity.
    rewrite (Handle_stored _ _ _ _ _ _ _ Hc E) in Hfirst by lia.
    set (entry := {| Status := 200;
                     Header := CloneHeaderSanitized (rangeOrder env0 h0);
                     Body := body0; SavedAt := nowSaved env0;
                     ExpireAt := ZeroOrExpiry (nowExpiry env0) (ttl p) |}) in Hfirst.
    assert (Hget : Get (cacheKey p r) (nowGet env) first.2 = ((entry, true), first.2)).
    { rewrite Hfirst. simpl. apply (Get_Set_same (cacheKey p r) entry (nowGet env) c0).
      simpl. unfold ZeroOrExpiry, TimeAdd.
      destruct (Z.leb_spec (ttl p) 0); [now left|right; lia]. }
    assert (Hsecond : second = Handle p env r first.2) by reflexivity.
    rewrite (Handle_backup_hit _ _ _ _ _ _ Hc Hf Hget) in Hsecond.
    unfold CopyHeadersForClient in Hsecond.
    rewrite (copy_sanitized (Header entry)) in Hsecond;
      [|apply CloneHeaderSanitized_sanitized|apply Hrange].
    rewrite Hsecond, Hfirst. simpl.
    repeat split; try reflexivity.
    apply backupHeader_annotations.
Qed.

Lemma sample_stored_sanitized : sanitized (Header Sample.stored).
Proof.
  intros k vv H. unfold Sample.stored in H. simpl in H.
  apply lookup_singleton_Some in H as [<- <-].
  repeat split; discriminate.
Qed.

Lemma failed_attempt_served_from_backup_witness :
  Handle Sample.proxy (Sample.env Sample.serverError 100) (Sample.request "GET" ∅)
         {| data := {[ "GET /users?page=1"%string := Sample.stored ]} |} =
  ({| wHeader := {[ "Content-Type"%string := ["application/json"%string];
                    "X-Served-By"%string := ["Aegis"%string];
                    "X-Cache"%string := ["HIT-BACKUP"%string];
                    "X-Backup-Saved-At"%string := ["50"%string] ]};
      wCode := Some 200;
      wBody := "{}" |},
   {| data := {[ "GET /users?page=1"%string := Sample.stored ]} |}).
Proof.
  destruct (failed_attempt_served_from_backup
              Sample.proxy (Sample.env Sample.serverError 100) (Sample.request "GET" ∅)
              {| data := {[ "GET /users?page=1"%string := Sample.stored ]} |}
              "upstream status 500") as (Hhit & _ & _).
  - reflexivity.
  - reflexivity.
  - intros h. reflexivity.
  - rewrite (Hhit Sample.stored).
    + reflexivity.
    + reflexivity.
    + right. simpl. lia.
    + exact sample_stored_sanitized.
Defined.

(** ** Response annotation *)

(** C2, amended. A response passed through from the upstream (the attempt
    was answered, with a status below 500 or for a non-cacheable method)
    carries [X-Served-By: Aegis] and an [X-Cache] header whose one value
    is MISS, PASS or BYPASS; a response served from the cache carries
    [X-Served-By: Aegis] and [X-Cache: HIT-BACKUP]; a synthesized 502
    (fallback without a live entry, or a failed attempt of a
    non-cacheable request) carries no [X-Cache] header. Every response is
    of one of these kinds. *)
Theorem responses_carry_cache_status
    (p : Proxy) (env : Env) (r : Request) (c : Cache) :
  let w := (Handle p env r c).1 in
  (forall st h b, attempt p env r = Answered st h b ->
     st < 500 \/ isCacheable r = false ->
     wCode w = Some st /\
     Values (wHeader w) "X-Served-By" = ["Aegis"%string] /\
     Values (wHeader w) "X-Cache" =
       [if isCacheable r && (200 <=? st) && (st <=? 299) then "MISS"%string
        else if isCacheable r then "PASS"%string else "BYPASS"%string]) /\
  (forall cause v, isCacheable r = true -> failureCause p env r = Some cause ->
     Get (cacheKey p r) (nowGet env) c = ((v, true), c) ->
     wCode w = Some (Status v) /\
     Values (wHeader w) "X-Served-By" = ["Aegis"%string] /\
     Values (wHeader w) "X-Cache" = ["HIT-BACKUP"%string]) /\
  ((isCacheable r = true /\ (exists cause, failureCause p env r = Some cause) /\
    (Get (cacheKey p r) (nowGet env) c).1.2 = false) \/
   (isCacheable r = false /\ exists err cause, attempt p env r = Failed err cause) ->
     wCode w = Some 502 /\ wHeader w !! "X-Cache"%string = None) /\
  ((Values (wHeader w) "X-Served-By" = ["Aegis"%string] /\
    exists s, In s cacheStatuses /\ Values (wHeader w) "X-Cache" = [s]) \/
   (wCode w = Some 502 /\ Values (wHeader w) "X-Cache" = [])).
Proof.
  intros w.
  assert (Hpass : forall st h b, attempt p env r = Answered st h b ->
     st < 500 \/ isCacheable r = false ->
     wCode w = Some st /\
     Values (wHeader w) "X-Served-By" = ["Aegis"%string] /\
     Values (wHeader w) "X-Cache" = [passStatus (isCacheable r) st]).
  { intros st h b E Hst. unfold w, Handle.
    rewrite (ServeHTTP_Answered _ _ _ _ _ _ _ _ E).
    assert ((500 <=? st) && isCacheable r = false) as ->.
    { destruct Hst as [Hst| ->]; [|apply andb_false_r].
      destruct (Z.leb_spec 500 st); [lia|reflexivity]. }
    simpl. repeat split.
    - rewrite Values_HSet_other by (vm_compute; discriminate). apply Values_HSet_same.
    - apply Values_HSet_same. }
  assert (Hhit : forall cause v, isCacheable r = true -> failureCause p env r = Some cause ->
     Get (cacheKey p r) (nowGet env) c = ((v, true), c) ->
     wCode w = Some (Status v) /\
     Values (wHeader w) "X-Served-By" = ["Aegis"%string] /\
     Values (wHeader w) "X-Cache" = ["HIT-BACKUP"%string]).
  { intros cause v Hc Hf Hget. unfold w.
    rewrite (Handle_backup_hit _ _ _ _ _ _ Hc Hf Hget). simpl.
    split; [reflexivity|]. split; apply backupHeader_annotations. }
  assert (Hmiss :
    (isCacheable r = true /\ (exists cause, failureCause p env r = Some cause) /\
     (Get (cacheKey p r) (nowGet env) c).1.2 = false) \/
    (isCacheable r = false /\ exists err cause, attempt p env r = Failed err cause) ->
     wCode w = Some 502 /\ wHeader w !! "X-Cache"%string = None).
  { intros [(Hc & (cause & Hf) & Hget)|(Hc & err & cause & E)]; unfold w.
    - rewrite (Handle_backup_miss _ _ _ _ _ Hc Hf Hget). split; reflexivity.
    - unfold Handle. rewrite (ServeHTTP_Failed _ _ _ _ _ _ _ E), Hc.
      rewrite httpError_fresh. split; reflexivity. }
  split; [exact Hpass|]. split; [exact Hhit|]. split; [exact Hmiss|].
  assert (Hnone : wCode w = Some 502 /\ wHeader w !! "X-Cache"%string = None ->
                  wCode w = Some 502 /\ Values (wHeader w) "X-Cache" = []).
  { intros [H1 H2]. split; [exact H1|].
    unfold Values, values. change (CanonicalHeaderKey "X-Cache") with "X-Cache"%string.
    now rewrite H2. }
  assert (Hin : forall b st, In (passStatus b st) cacheStatuses).
  { intros b st. unfold passStatus, cacheStatuses.
    destruct (b && (200 <=? st) && (st <=? 299)); [simpl; auto|].
    destruct b; simpl; auto. }
  destruct (isCacheable r) eqn:Hc.
  - destruct (failureCause p env r) as [cause|] eqn:Hf.
    + destruct (Get (cacheKey p r) (nowGet env) c) as [[v ok] c'] eqn:Hget.
      pose proof (Get_store (cacheKey p r) (nowGet env) c) as Hs.
      rewrite Hget in Hs. simpl in Hs. subst c'.
      destruct ok.
      * left. destruct (Hhit cause v eq_refl eq_refl eq_refl) as (_ & H1 & H2).
        split; [exact H1|]. exists "HIT-BACKUP"%string. split; [simpl; auto|exact H2].
      * right. apply Hnone, Hmiss. left. split; [reflexivity|].
        split; [now exists cause|reflexivity].
    + unfold failureCause in Hf.
      destruct (attempt p env r) as [err cause|st h b] eqn:E; [discriminate|].
      destruct (Z.leb_spec 500 st); [discriminate|].
      left. destruct (Hpass st h b eq_refl) as (_ & H1 & H2); [now left|].
      split; [exact H1|]. exists (passStatus true st). split; [apply Hin|exact H2].
  - destruct (attempt p env r) as [err cause|st h b] eqn:E.
    + right. apply Hnone, Hmiss. right. split; [reflexivity|]. now exists err, cause.
    + left. destruct (Hpass st h b eq_refl) as (_ & H1 & H2); [now right|].
      split; [exact H1|]. exists (passStatus false st). split; [apply Hin|exact H2].
Qed.

(** Not every response carries the two headers: a GET whose upstream is
    unreachable and whose key is not in the cache gets a synthesized 502
    without [X-Served-By] and without [X-Cache]. *)
Lemma bad_gateway_lacks_annotations :
  ~ (forall (p : Proxy) (env : Env) (r : Request) (c : Cache),
       HGet (wHeader (Handle p env r c).1) "X-Served-By" = "Aegis"%string) /\
  ~ (forall (p : Proxy) (env : Env) (r : Request) (c : Cache),
       In (HGet (wHeader (Handle p env r c).1) "X-Cache") cacheStatuses).
Proof.
  split; intros H.
  - specialize (H Sample.proxy (Sample.env Sample.unreachable 100)
                  (Sample.request "GET" ∅) New).
    vm_compute in H. discriminate H.
  - specialize (H Sample.proxy (Sample.env Sample.unreachable 100)
                  (Sample.request "GET" ∅) New).
    vm_compute in H. repeat destruct H as [H|H]; try discriminate H. exact H.
Qed.

(** ** Requests that are not cacheable *)

(** C3, amended for answered attempts. For a request that is not
    cacheable, an attempt that fails with an error (build, transport or
    body read) is answered with a synthesized 502 whose body is
    ["Bad Gateway: "] followed by the error; an attempt that is answered,
    with any status, 500 and above included, is passed through with its
    status and body and [X-Cache: BYPASS]. In both cases the store is
    neither consulted nor changed: the response is the same for every
    content of the cache, and the cache is left as it was. *)
Theorem noncacheable_never_falls_back
    (p : Proxy) (env : Env) (r : Request) (c : Cache) :
  isCacheable r = false ->
  (forall err cause, attempt p env r = Failed err cause ->
     Handle p env r c =
     ({| wHeader := errorHeader;
         wCode := Some 502;
         wBody := "Bad Gateway: " +:+ err +:+ String "010" "" |}, c)) /\
  (forall st h b, attempt p env r = Answered st h b ->
     wCode (Handle p env r c).1 = Some st /\
     wBody (Handle p env r c).1 = b /\
     Values (wHeader (Handle p env r c).1) "X-Served-By" = ["Aegis"%string] /\
     Values (wHeader (Handle p env r c).1) "X-Cache" = ["BYPASS"%string]) /\
  (forall c', (Handle p env r c').1 = (Handle p env r c).1) /\
  (Handle p env r c).2 = c.
Proof.
  intros Hc. split; [|split; [|split]].
  - intros err cause E. unfold Handle.
    rewrite (ServeHTTP_Failed _ _ _ _ _ _ _ E), Hc, httpError_fresh.
    now rewrite str_app_assoc.
  - intros st h b E. unfold Handle.
    rewrite (ServeHTTP_Answered _ _ _ _ _ _ _ _ E), Hc, andb_false_r. simpl.
    repeat split.
    + rewrite Values_HSet_other by (vm_compute; discriminate). apply Values_HSet_same.
    + apply Values_HSet_same.
  - intros c'. unfold Handle.
    destruct (attempt p env r) as [err cause|st h b] eqn:E.
    + now rewrite !(ServeHTTP_Failed _ _ _ _ _ _ _ E), Hc.
    + now rewrite !(ServeHTTP_Answered _ _ _ _ _ _ _ _ E), Hc, andb_false_r.
  - unfold Handle. rewrite ServeHTTP_store, Hc.
    now destruct (attempt p env r).
Qed.

Lemma noncacheable_never_falls_back_witness :
  Handle Sample.proxy (Sample.env Sample.unreachable 100) (Sample.request "POST" ∅)
         {| data := {[ "POST /users?page=1"%string := Sample.stored ]} |} =
  ({| wHeader := errorHeader;
      wCode := Some 502;
      wBody := "Bad Gateway: dial tcp: connection refused" +:+ String "010" "" |},
   {| data := {[ "POST /users?page=1"%string := Sample.stored ]} |}).
Proof.
  destruct (noncacheable_never_falls_back
              Sample.proxy (Sample.env Sample.unreachable 100) (Sample.request "POST" ∅)
              {| data := {[ "POST /users?page=1"%string := Sample.stored ]} |})
    as (Hfailed & _).
  - reflexivity.
  - apply (Hfailed "dial tcp: connection refused"%string
                   "dial tcp: connection refused"%string).
    reflexivity.
Defined.

(** A status of 500 and above does not make the handler synthesize a 502
    for a request that is not cacheable: a POST answered 500 by the
    upstream is passed through with status 500. *)
Lemma noncacheable_500_passed_through :
  ~ (forall (p : Proxy) (env : Env) (r : Request) (c : Cache) st h b,
       isCacheable r = false ->
       attempt p env r = Answered st h b -> 500 <= st ->
       wCode (Handle p env r c).1 = Some 502).
Proof.
  intros H.
  specialize (H Sample.proxy (Sample.env Sample.serverError 100)
                (Sample.request "POST" ∅) New 500 ∅ "error"%string
                eq_refl eq_refl ltac:(lia)).
  vm_compute in H. discriminate H.
Qed.

(** ** Writes to the store *)

(** C7. A request changes the store only when it is cacheable and
    answered with a status from 200 to 299, and then by setting the entry
    of its key. In every other case (a method that is not cacheable,
    whatever the upstream does; a status outside 200..299; a failed
    attempt) the store after the request is the store before it. A
    cacheable request answered 404 is passed through with status 404 and
    [X-Cache: PASS] and leaves the store unchanged. *)
Theorem store_written_only_on_cacheable_success
    (p : Proxy) (env : Env) (w : ResponseWriter) (r : Request) (c : Cache) :
  (forall st h b, isCacheable r = true -> attempt p env r = Answered st h b ->
     200 <= st <= 299 ->
     (ServeHTTP p env w r c).2 =
     (Set_ (cacheKey p r)
           {| Status := st;
              Header := CloneHeaderSanitized (rangeOrder env h);
              Body := b;
              SavedAt := nowSaved env;
              ExpireAt := ZeroOrExpiry (nowExpiry env) (ttl p) |} c).2) /\
  (isCacheable r = false -> (ServeHTTP p env w r c).2 = c) /\
  (forall st h b, attempt p env r = Answered st h b -> st < 200 \/ 299 < st ->
     (ServeHTTP p env w r c).2 = c) /\
  (forall err cause, attempt p env r = Failed err cause ->
     (ServeHTTP p env w r c).2 = c) /\
  ((ServeHTTP p env w r c).2 <> c ->
     isCacheable r = true /\
     exists st h b, attempt p env r = Answered st h b /\ 200 <= st <= 299) /\
  (forall h b, isCacheable r = true -> attempt p env r = Answered 404 h b ->
     (Handle p env r c).2 = c /\
     wCode (Handle p env r c).1 = Some 404 /\
     wBody (Handle p env r c).1 = b /\
     Values (wHeader (Handle p env r c).1) "X-Cache" = ["PASS"%string]).
Proof.
  assert (Hout : forall st h b, attempt p env r = Answered st h b -> st < 200 \/ 299 < st ->
     isCacheable r && (200 <=? st) && (st <=? 299) = false).
  { intros st h b _ Hst. destruct (isCacheable r); [simpl|reflexivity].
    destruct (Z.leb_spec 200 st); [simpl|reflexivity].
    destruct (Z.leb_spec st 299); [lia|reflexivity]. }
  split; [|split; [|split; [|split; [|split]]]].
  - intros st h b Hc E Hst. rewrite ServeHTTP_store, E, Hc. simpl.
    destruct (Z.leb_spec 200 st); [|lia].
    destruct (Z.leb_spec st 299); [|lia]. reflexivity.
  - intros Hc. rewrite ServeHTTP_store, Hc. now destruct (attempt p env r).
  - intros st h b E Hst. now rewrite ServeHTTP_store, E, (Hout st h b E Hst).
  - intros err cause E. now rewrite ServeHTTP_store, E.
  - rewrite ServeHTTP_store. intros Hne.
    destruct (attempt p env r) as [err cause|st h b]; [contradiction|].
    destruct (isCacheable r); [|contradiction].
    split; [reflexivity|]. exists st, h, b. split; [reflexivity|].
    simpl in Hne.
    destruct (Z.leb_spec 200 st); [|contradiction].
    destruct (Z.leb_spec st 299); [lia|contradiction].
  - intros h b Hc E. unfold Handle.
    split; [rewrite ServeHTTP_store, E, Hc; reflexivity|].
    rewrite (ServeHTTP_Answered _ _ _ _ _ _ _ _ E), Hc. simpl.
    repeat split. apply Values_HSet_same.
Qed.

(** ** Scenarios of the test suite *)

(** A GET answered 200 is stored with [X-Cache: MISS]; the same GET, when
    the upstream then answers 500, is served the stored body with
    [X-Cache: HIT-BACKUP]; the hop-by-hop header of the upstream is not
    forwarded. *)
Example failover_scenario :
  let r := Sample.request "GET" ∅ in
  let first := Handle Sample.proxy (Sample.env Sample.ok 50) r New in
  let second := Handle Sample.proxy (Sample.env Sample.serverError 100) r first.2 in
  wCode first.1 = Some 200 /\
  HGet (wHeader first.1) "X-Cache" = "MISS"%string /\
  HGet (wHeader first.1) "Connection" = ""%string /\
  wCode second.1 = Some 200 /\
  wBody second.1 = wBody first.1 /\
  HGet (wHeader second.1) "X-Cache" = "HIT-BACKUP"%string /\
  HGet (wHeader second.1) "X-Served-By" = "Aegis"%string.
Proof. vm_compute. repeat split. Qed.

(** A GET answered 404 is passed through and not stored; a POST answered
    200 bypasses the cache. *)
Example status_and_method_gating :
  let notFound := Handle Sample.proxy (Sample.env Sample.notFound 50) (Sample.request "GET" ∅) New in
  let post := Handle Sample.proxy (Sample.env Sample.ok 50) (Sample.request "POST" ∅) New in
  wCode notFound.1 = Some 404 /\
  HGet (wHeader notFound.1) "X-Cache" = "PASS"%string /\
  (Size notFound.2).1 = 0 /\
  HGet (wHeader post.1) "X-Cache" = "BYPASS"%string /\
  (Size post.2).1 = 0.
Proof. vm_compute. repeat split. Qed.

(** * Further properties of the code *)

(** ** Paths *)

Lemma trimLeftSlash_split s :
  exists n, s = slashes n +:+ trimLeftSlash s.
Proof.
  induction s as [|c s [n IH]]; [now exists 0%nat|].
  simpl. destruct (Ascii.eqb_spec c "/") as [->|Hc].
  - exists (S n). simpl. rewrite str_app_cons. now f_equal.
  - now exists 0%nat.
Qed.

Lemma trimLeftSlash_first s : firstByte (trimLeftSlash s) <> Some "/"%char.
Proof.
  induction s as [|c s IH]; simpl; [discriminate|].
  destruct (Ascii.eqb_spec c "/") as [->|Hc]; [exact IH|].
  simpl. congruence.
Qed.

Lemma trimRightSlash_cons c s :
  trimRightSlash (String c s) =
  match trimRightSlash s with
  | EmptyString => if Ascii.eqb c "/" then EmptyString else String c EmptyString
  | t => String c t
  end.
Proof. reflexivity. Qed.

Lemma slashes_snoc n : slashes n +:+ "/" = String "/" (slashes n).
Proof.
  induction n as [|n IH]; [reflexivity|].
  simpl. rewrite str_app_cons. now rewrite IH.
Qed.

Lemma trimRightSlash_split s :
  exists n, s = trimRightSlash s +:+ slashes n.
Proof.
  induction s as [|c s [n IH]]; [now exists 0%nat|].
  rewrite trimRightSlash_cons.
  destruct (trimRightSlash s) as [|c' t] eqn:E.
  - rewrite str_app_nil_l in IH.
    destruct (Ascii.eqb_spec c "/") as [->|Hc].
    + exists (S n). rewrite str_app_nil_l. simpl. now f_equal.
    + exists n. rewrite str_app_cons, str_app_nil_l. now f_equal.
  - exists n. rewrite str_app_cons. now f_equal.
Qed.

Lemma trimRightSlash_last s : lastByte (trimRightSlash s) <> Some "/"%char.
Proof.
  induction s as [|c s IH]; [discriminate|].
  rewrite trimRightSlash_cons.
  destruct (trimRightSlash s) as [|c' t] eqn:E.
  - destruct (Ascii.eqb_spec c "/") as [->|Hc]; simpl; congruence.
  - exact IH.
Qed.

(** X1. [EnsureLeadingSlash] returns a path that starts with a slash: the
    path itself when it already does, the path with one slash put in
    front otherwise (["/"] for the empty path). Applying it twice is the
    same as applying it once. *)
Theorem EnsureLeadingSlash_spec (s : string) :
  firstByte (EnsureLeadingSlash s) = Some "/"%char /\
  (firstByte s = Some "/"%char -> EnsureLeadingSlash s = s) /\
  (firstByte s <> Some "/"%char -> EnsureLeadingSlash s = "/" +:+ s) /\
  EnsureLeadingSlash (EnsureLeadingSlash s) = EnsureLeadingSlash s.
Proof.
  destruct s as [|c s].
  - split; [reflexivity|]. split; [discriminate|]. split; reflexivity.
  - destruct (Ascii.eqb_spec c "/") as [->|Hc].
    + split; [reflexivity|]. split; [reflexivity|].
      split; [|reflexivity]. intros H. now contradiction H.
    + assert (E : EnsureLeadingSlash (String c s) = "/" +:+ String c s).
      { unfold EnsureLeadingSlash. now destruct (Ascii.eqb_spec c "/"). }
      rewrite E. split; [reflexivity|]. split; [|split; reflexivity].
      intros [= H]. contradiction.
Qed.

(** X2. When neither path is empty or ["/"], [SingleSlashJoin] puts exactly
    one slash at the join: the result is the first path without its
    trailing slashes, one slash, and the second path without its leading
    slashes; what is left of the first path does not end with a slash and
    what is left of the second does not start with one. *)
Theorem SingleSlashJoin_one_slash (a b : string) :
  a <> ""%string -> a <> "/"%string -> b <> ""%string -> b <> "/"%string ->
  exists (x y : string) (m n : nat),
    SingleSlashJoin a b = x +:+ "/" +:+ y /\
    a = x +:+ slashes m /\ b = slashes n +:+ y /\
    lastByte x <> Some "/"%char /\ firstByte y <> Some "/"%char.
Proof.
  intros Ha1 Ha2 Hb1 Hb2.
  destruct (trimRightSlash_split a) as [m Hm].
  destruct (trimLeftSlash_split b) as [n Hn].
  exists (trimRightSlash a), (trimLeftSlash b), m, n.
  split; [|split; [exact Hm|split; [exact Hn|split]]].
  - unfold SingleSlashJoin.
    destruct (String.eqb_spec a ""); [contradiction|].
    destruct (String.eqb_spec a "/"); [contradiction|].
    destruct (String.eqb_spec b ""); [contradiction|].
    destruct (String.eqb_spec b "/"); [contradiction|]. reflexivity.
  - apply trimRightSlash_last.
  - apply trimLeftSlash_first.
Qed.

Lemma SingleSlashJoin_one_slash_witness :
  exists (x y : string) (m n : nat),
    SingleSlashJoin "/api//" "//v1/users" = x +:+ "/" +:+ y /\
    "/api//"%string = x +:+ slashes m /\ "//v1/users"%string = slashes n +:+ y /\
    lastByte x <> Some "/"%char /\ firstByte y <> Some "/"%char.
Proof.
  apply (SingleSlashJoin_one_slash "/api//" "//v1/users"); discriminate.
Defined.

Lemma firstByte_app x y :
  firstByte (x +:+ y) = match firstByte x with Some c => Some c | None => firstByte y end.
Proof. now destruct x. Qed.

(** X3. The joined path is never empty, and it starts with a slash
    whenever the base path is empty or starts with a slash; so does the
    path of the URL the handler sends upstream. *)
Theorem SingleSlashJoin_leading_slash (a b : string) :
  a = ""%string \/ firstByte a = Some "/"%char ->
  firstByte (SingleSlashJoin a b) = Some "/"%char /\
  SingleSlashJoin a b <> ""%string /\
  (forall p r, Path (upstream p) = a -> Path (ReqURL r) = b ->
     firstByte (Path (upstreamURL p r)) = Some "/"%char).
Proof.
  intros Ha.
  assert (H : firstByte (SingleSlashJoin a b) = Some "/"%char).
  { unfold SingleSlashJoin.
    destruct (String.eqb_spec a "") as [->|Ha1]; [apply EnsureLeadingSlash_spec|].
    destruct (String.eqb_spec a "/") as [->|Ha2]; [apply EnsureLeadingSlash_spec|].
    destruct Ha as [Ha|Ha]; [contradiction|]. simpl.
    destruct (String.eqb b "" || String.eqb b "/").
    - destruct (EnsureLeadingSlash_spec a) as (_ & Hfix & _). now rewrite Hfix.
    - rewrite firstByte_app.
      destruct a as [|c a]; [discriminate|]. simpl in Ha. injection Ha as ->.
      rewrite trimRightSlash_cons.
      destruct (trimRightSlash a); reflexivity. }
  split; [exact H|]. split.
  - intros E. rewrite E in H. discriminate.
  - intros p r <- <-. exact H.
Qed.

Lemma SingleSlashJoin_leading_slash_witness :
  firstByte (SingleSlashJoin "/api/" "v1") = Some "/"%char.
Proof.
  apply (SingleSlashJoin_leading_slash "/api/" "v1"). right. reflexivity.
Defined.

(** The rows of the table in the tests of [SingleSlashJoin]. *)
Example SingleSlashJoin_table :
  map (fun ab => SingleSlashJoin ab.1 ab.2)
      [(""%string, ""%string); ("", "/"); ("/", ""); ("/", "/"); ("/api", "/v1");
       ("/api/", "/v1"); ("/api", "v1"); ("/api/", "v1"); ("api", "v1"); ("api/", "/v1")]%string
  = ["/"; "/"; "/"; "/"; "/api/v1"; "/api/v1"; "/api/v1"; "/api/v1"; "api/v1"; "api/v1"]%string.
Proof. reflexivity. Qed.

(** ** The cache: writes, size and memory usage *)

(** X4. [Set] followed by [Get]. A value that has not expired is read
    back under its key; a value whose non-zero [ExpireAt] is already past
    is not, although it is stored. A write does not change what [Get]
    returns for any other key. A second write to a key replaces the
    first, and writes to different keys commute. [Get] on a new cache
    finds nothing. *)
Theorem Set_then_Get (key key' : string) (value value' : Response) (now : Time) (c : Cache) :
  (ExpireAt value = 0 \/ now <= ExpireAt value ->
     (Get key now (Set_ key value c).2).1 = (value, true)) /\
  (ExpireAt value <> 0 -> ExpireAt value < now ->
     (Get key now (Set_ key value c).2).1 = (zeroResponse, false) /\
     data (Set_ key value c).2 !! key = Some value) /\
  (key <> key' ->
     (Get key' now (Set_ key value c).2).1 = (Get key' now c).1) /\
  (Set_ key value' (Set_ key value c).2).2 = (Set_ key value' c).2 /\
  (key <> key' ->
     (Set_ key' value' (Set_ key value c).2).2 = (Set_ key value (Set_ key' value' c).2).2) /\
  (Get key now New).1 = (zeroResponse, false).
Proof.
  split; [|split; [|split; [|split; [|split]]]].
  - intros Hlive. now rewrite (Get_Set_same key value now c Hlive).
  - intros Hnz Hlt. split; [|simpl; apply lookup_insert_eq].
    unfold Get, IsZero, After. simpl. rewrite lookup_insert_eq.
    destruct (Z.eqb_spec (ExpireAt value) 0); [contradiction|].
    destruct (Z.ltb_spec (ExpireAt value) now); [reflexivity|lia].
  - intros Hne. unfold Get. simpl. rewrite lookup_insert_ne by exact Hne.
    destruct (data c !! key') as [v|]; [|reflexivity].
    now destruct (negb (IsZero (ExpireAt v)) && After now (ExpireAt v)).
  - simpl. now rewrite insert_insert_eq.
  - intros Hne. simpl. f_equal. now apply insert_insert_ne.
  - reflexivity.
Qed.

(** X5. [Size] counts the keys of the map, whether their entries have
    expired or not: it is 0 for a new cache, grows by one when [Set]
    writes a key that was absent and stays the same when [Set] overwrites
    a key. *)
Theorem Size_counts_keys (key : string) (value : Response) (c : Cache) :
  (Size New).1 = 0 /\
  0 <= (Size c).1 /\
  (data c !! key = None -> (Size (Set_ key value c).2).1 = (Size c).1 + 1) /\
  (is_Some (data c !! key) -> (Size (Set_ key value c).2).1 = (Size c).1) /\
  (forall now, (Size (Get key now (Set_ key value c).2).2).1 >= 1).
Proof.
  split; [reflexivity|]. split; [simpl; lia|]. split; [|split].
  - intros Hk. simpl. rewrite map_size_insert_None by exact Hk. lia.
  - intros Hk. simpl. now rewrite map_size_insert_Some.
  - intros now. rewrite Get_store. simpl.
    destruct (data c !! key) eqn:Hk.
    + rewrite map_size_insert_Some by eauto.
      assert (size (data c) <> 0%nat); [|lia].
      intros E. apply map_size_empty_inv in E. rewrite E, lookup_empty in Hk. discriminate.
    + rewrite map_size_insert_None by exact Hk. lia.
Qed.

Lemma wrap64_range z : inRange64 (wrap64 z).
Proof.
  unfold inRange64, wrap64.
  pose proof (Z.mod_pos_bound (z + 2 ^ 63) (2 ^ 64) ltac:(lia)). lia.
Qed.

Lemma wrap64_small z : inRange64 z -> wrap64 z = z.
Proof.
  unfold inRange64, wrap64. intros H.
  rewrite Z.mod_small; lia.
Qed.

Lemma wrap64_add_l a b : wrap64 (wrap64 a + b) = wrap64 (a + b).
Proof.
  unfold wrap64.
  replace ((a + 2 ^ 63) mod 2 ^ 64 - 2 ^ 63 + b + 2 ^ 63)
    with ((a + 2 ^ 63) mod 2 ^ 64 + b) by lia.
  rewrite Zplus_mod_idemp_l. apply (f_equal (fun z => z - 2 ^ 63)). apply (f_equal (fun z => z mod 2 ^ 64)). lia.
Qed.

Lemma fold_wrap64 {A : Type} (f : A -> Z) (step : Z -> A -> Z) (l : list A) :
  (forall t x, inRange64 t -> step t x = wrap64 (t + f x)) ->
  forall t, inRange64 t -> fold_left step l t = wrap64 (t + sumOf f l).
Proof.
  intros Hstep. induction l as [|x l IH]; intros t Ht; simpl.
  - now rewrite Z.add_0_r, wrap64_small.
  - rewrite (Hstep t x Ht), IH by apply wrap64_range.
    rewrite wrap64_add_l. apply (f_equal wrap64). lia.
Qed.

Lemma sumOf_perm {A : Type} (f : A -> Z) (l l' : list A) :
  l ≡ₚ l' -> sumOf f l = sumOf f l'.
Proof. induction 1; simpl; lia. Qed.

Lemma sumOf_nonneg {A : Type} (f : A -> Z) (l : list A) :
  (forall x, 0 <= f x) -> 0 <= sumOf f l.
Proof.
  intros Hf. induction l as [|x l IH]; simpl; [lia|].
  specialize (Hf x). lia.
Qed.

Lemma len_nonneg s : 0 <= len s.
Proof. unfold len. lia. Qed.

Lemma headerBytes_nonneg kv : 0 <= headerBytes kv.
Proof.
  unfold headerBytes. pose proof (len_nonneg kv.1).
  pose proof (sumOf_nonneg len kv.2 len_nonneg). lia.
Qed.

Lemma entryBytes_nonneg kv : 0 <= entryBytes kv.
Proof.
  unfold entryBytes. pose proof (len_nonneg kv.1). pose proof (len_nonneg (Body kv.2)).
  pose proof (sumOf_nonneg headerBytes (map_to_list (Header kv.2)) headerBytes_nonneg). lia.
Qed.

Lemma addHeaderLengths_eq t kv :
  inRange64 t -> addHeaderLengths t kv = wrap64 (t + headerBytes kv).
Proof.
  intros Ht. unfold addHeaderLengths, addValueLengths, headerBytes.
  rewrite (fold_wrap64 len) by (reflexivity || apply wrap64_range).
  rewrite wrap64_add_l. apply (f_equal wrap64). lia.
Qed.

Lemma addEntryLengths_eq rangeHeader t kv :
  (forall h : HeaderMap, rangeHeader h ≡ₚ map_to_list h) ->
  inRange64 t -> addEntryLengths rangeHeader t kv = wrap64 (t + entryBytes kv).
Proof.
  intros Hr Ht. unfold addEntryLengths, entryBytes.
  rewrite (fold_wrap64 headerBytes) by (apply addHeaderLengths_eq || apply wrap64_range).
  rewrite (sumOf_perm _ _ _ (Hr (Header kv.2))).
  rewrite wrap64_add_l, <- Z.add_assoc, wrap64_add_l. apply (f_equal wrap64). lia.
Qed.

(** X6. [MemoryUsage] is the sum, over the entries, of the lengths of the
    key, of the body and of every header name and header value, reduced
    to 64 bits; it is that sum itself as long as the sum is below 2^63.
    The result does not depend on the order in which the maps are walked,
    and the cache is not changed. Writing an absent key adds the size of
    the new entry to the sum; overwriting a key replaces the size of the
    old entry by that of the new one. *)
Theorem MemoryUsage_is_sum
    (rangeData : gmap string Response -> list (string * Response))
    (rangeHeader : HeaderMap -> list (string * list string)) (c : Cache) :
  (forall m : gmap string Response, rangeData m ≡ₚ map_to_list m) ->
  (forall h : HeaderMap, rangeHeader h ≡ₚ map_to_list h) ->
  (MemoryUsage rangeData rangeHeader c).1 = wrap64 (cacheBytes c) /\
  (cacheBytes c < 2 ^ 63 -> (MemoryUsage rangeData rangeHeader c).1 = cacheBytes c) /\
  (MemoryUsage rangeData rangeHeader c).2 = c /\
  0 <= cacheBytes c /\
  (forall key value, data c !! key = None ->
     cacheBytes (Set_ key value c).2 = cacheBytes c + entryBytes (key, value)) /\
  (forall key value old, data c !! key = Some old ->
     cacheBytes (Set_ key value c).2 =
     cacheBytes c - entryBytes (key, old) + entryBytes (key, value)).
Proof.
  intros Hd Hh.
  assert (Hpos : 0 <= cacheBytes c) by apply sumOf_nonneg, entryBytes_nonneg.
  assert (E : (MemoryUsage rangeData rangeHeader c).1 = wrap64 (cacheBytes c)).
  { unfold MemoryUsage, cacheBytes. simpl.
    rewrite (fold_wrap64 entryBytes).
    - now rewrite (sumOf_perm _ _ _ (Hd (data c))).
    - intros t x Ht. now apply addEntryLengths_eq.
    - unfold inRange64. lia. }
  split; [exact E|]. split; [|split; [reflexivity|split; [exact Hpos|split]]].
  - intros Hlt. rewrite E. apply wrap64_small. unfold inRange64. lia.
  - intros key value Hk. unfold cacheBytes. simpl.
    rewrite (sumOf_perm _ _ _ (map_to_list_insert (data c) key value Hk)).
    simpl. lia.
  - intros key value old Hk. unfold cacheBytes. simpl.
    rewrite <- (insert_delete_eq (data c) key value).
    rewrite (sumOf_perm _ _ _ (map_to_list_insert (delete key (data c)) key value
                                 (lookup_delete_eq (data c) key))).
    rewrite <- (sumOf_perm _ _ _ (map_to_list_delete (data c) key old Hk)).
    simpl. lia.
Qed.

Lemma MemoryUsage_is_sum_witness :
  (MemoryUsage map_to_list map_to_list
     {| data := {[ "GET /users?page=1"%string := Sample.stored ]} |}).1 = 47.
Proof.
  destruct (MemoryUsage_is_sum map_to_list map_to_list
              {| data := {[ "GET /users?page=1"%string := Sample.stored ]} |})
    as (_ & Hsmall & _).
  - intros m. reflexivity.
  - intros h. reflexivity.
  - rewrite Hsmall; [reflexivity|]. vm_compute. reflexivity.
Defined.

(** ** What the handler keeps in the store *)

Lemma cacheKey_method_prefix p r :
  isCacheable r = true ->
  exists rest, cacheKey p r = "GET " +:+ rest \/ cacheKey p r = "HEAD " +:+ rest.
Proof.
  intros Hc. rewrite cacheKey_keyFormat. unfold keyFormat.
  exists (Path (ReqURL r) +:+ "?" +:+ RawQuery (ReqURL r) +:+
          concatAll (map (keySegment r) (keyHeaders p))).
  unfold isCacheable in Hc. apply orb_prop in Hc as [Hm|Hm];
    apply String.eqb_eq in Hm; rewrite Hm; [left|right]; reflexivity.
Qed.

Lemma ServeHTTP_storeWellFormed p env w r c :
  storeWellFormed c -> storeWellFormed (ServeHTTP p env w r c).2.
Proof.
  intros Hc. rewrite ServeHTTP_store.
  destruct (attempt p env r) as [err cause|st h b]; [exact Hc|].
  destruct (isCacheable r) eqn:Hcache; [|exact Hc]. simpl.
  destruct (Z.leb_spec 200 st); [|exact Hc].
  destruct (Z.leb_spec st 299); [|exact Hc]. simpl.
  intros key v. simpl. rewrite lookup_insert.
  case_decide as Hk; [|apply Hc].
  intros [= <-]. subst key. split; [simpl; lia|]. split.
  - apply CloneHeaderSanitized_sanitized.
  - now apply cacheKey_method_prefix.
Qed.

Lemma serveAll_store p reqs : forall c,
  (serveAll p reqs c).2 =
  fold_left (fun c er => (Handle p er.1 er.2 c).2) reqs c.
Proof.
  induction reqs as [|er reqs IH]; intros c; simpl; [reflexivity|].
  destruct (Handle p er.1 er.2 c) as [w c1] eqn:E1.
  specialize (IH c1). destruct (serveAll p reqs c1) as [ws c2]. simpl in *.
  now rewrite IH.
Qed.

(** X7. Whatever requests are handled, one after the other, starting from
    a new cache, every entry of the store has a status from 200 to 299, a
    header without hop-by-hop names, with canonical keys and no empty
    value list, and a key that starts with ["GET "] or ["HEAD "]; the
    handler keeps this true of any store of which it is true. *)
Theorem store_holds_only_successes (p : Proxy) (reqs : list (Env * Request)) :
  storeWellFormed (serveAll p reqs New).2 /\
  (forall c, storeWellFormed c -> storeWellFormed (serveAll p reqs c).2) /\
  (forall key v, data (serveAll p reqs New).2 !! key = Some v ->
     200 <= Status v <= 299 /\
     (forall k, IsHopByHopHeader k = true -> Header v !! k = None)).
Proof.
  assert (H : forall c, storeWellFormed c -> storeWellFormed (serveAll p reqs c).2).
  { intros c Hc. rewrite serveAll_store. revert c Hc.
    induction reqs as [|er reqs IH]; intros c Hc; simpl; [exact Hc|].
    apply IH. unfold Handle. now apply ServeHTTP_storeWellFormed. }
  assert (H0 : storeWellFormed (serveAll p reqs New).2).
  { apply H. intros key v. simpl. now rewrite lookup_empty. }
  split; [exact H0|]. split; [exact H|].
  intros key v Hv. destruct (H0 key v Hv) as (Hst & Hsan & _).
  split; [exact Hst|]. intros k Hk.
  destruct (Header v !! k) as [vv|] eqn:E; [|reflexivity].
  destruct (Hsan k vv E) as (_ & Hno & _). congruence.
Qed.

(** X8. A cacheable request never receives a status of 500 or more other
    than 502, when the store holds what the handler stores: the response
    has the upstream status when that is below 500, a stored status from
    200 to 299 when a backup is served, and 502 otherwise. A response
    marked [X-Cache: HIT-BACKUP] has a status from 200 to 299. *)
Theorem cacheable_never_sees_upstream_5xx
    (p : Proxy) (env : Env) (r : Request) (c : Cache) :
  isCacheable r = true ->
  storeWellFormed c ->
  (exists st, wCode (Handle p env r c).1 = Some st /\ (st < 500 \/ st = 502)) /\
  (Values (wHeader (Handle p env r c).1) "X-Cache" = ["HIT-BACKUP"%string] ->
   exists st, wCode (Handle p env r c).1 = Some st /\ 200 <= st <= 299).
Proof.
  intros Hc Hwf.
  destruct (failureCause p env r) as [cause|] eqn:Hf.
  - destruct (Get (cacheKey p r) (nowGet env) c) as [[v ok] c'] eqn:Hget.
    pose proof (Get_store (cacheKey p r) (nowGet env) c) as Hs.
    rewrite Hget in Hs. simpl in Hs. subst c'. destruct ok.
    + rewrite (Handle_backup_hit _ _ _ _ _ _ Hc Hf Hget). simpl.
      apply Get_found in Hget as [Hv _].
      destruct (Hwf _ _ Hv) as (Hst & _).
      split; [exists (Status v); split; [reflexivity|lia]|].
      intros _. now exists (Status v).
    + rewrite (Handle_backup_miss _ _ _ _ _ Hc Hf); [|now rewrite Hget]. simpl.
      split; [exists 502; split; [reflexivity|now right]|].
      intros H. vm_compute in H. discriminate H.
  - unfold failureCause in Hf.
    destruct (attempt p env r) as [err cause|st h b] eqn:E; [discriminate|].
    destruct (Z.leb_spec 500 st) as [|Hlt]; [discriminate|].
    unfold Handle. rewrite (ServeHTTP_Answered _ _ _ _ _ _ _ _ E), Hc.
    destruct (Z.leb_spec 500 st); [lia|]. simpl.
    split; [exists st; split; [reflexivity|now left]|].
    rewrite Values_HSet_same. unfold passStatus.
    destruct (true && (200 <=? st) && (st <=? 299)); discriminate.
Qed.

Lemma cacheable_never_sees_upstream_5xx_witness :
  exists st, wCode (Handle Sample.proxy (Sample.env Sample.serverError 100)
                      (Sample.request "GET" ∅) New).1 = Some st /\
             (st < 500 \/ st = 502).
Proof.
  apply (cacheable_never_sees_upstream_5xx Sample.proxy (Sample.env Sample.serverError 100)
           (Sample.request "GET" ∅) New).
  - reflexivity.
  - intros key v H. simpl in H. rewrite lookup_empty in H. discriminate H.
Defined.

(** X9. The handler never removes an entry and never touches the entry of
    another key: after a request, every key other than the key of the
    request has the entry it had, every key that was present is present,
    and the number of entries is the same or one more. After a sequence
    of requests it has grown by at most the number of requests. *)
Theorem handler_never_evicts
    (p : Proxy) (env : Env) (w : ResponseWriter) (r : Request) (c : Cache) :
  (forall key, key <> cacheKey p r ->
     data (ServeHTTP p env w r c).2 !! key = data c !! key) /\
  (forall key, is_Some (data c !! key) ->
     is_Some (data (ServeHTTP p env w r c).2 !! key)) /\
  (Size c).1 <= (Size (ServeHTTP p env w r c).2).1 <= (Size c).1 + 1 /\
  (forall reqs,
     (Size c).1 <= (Size (serveAll p reqs c).2).1 <= (Size c).1 + Z.of_nat (length reqs)).
Proof.
  assert (Hstep : forall env w r c,
    (Size c).1 <= (Size (ServeHTTP p env w r c).2).1 <= (Size c).1 + 1).
  { intros env' w' r' c'. rewrite ServeHTTP_store.
    destruct (attempt p env' r') as [err cause|st h b]; [lia|].
    destruct (isCacheable r' && (200 <=? st) && (st <=? 299)); [|lia]. simpl.
    destruct (data c' !! cacheKey p r') eqn:Hk.
    - rewrite map_size_insert_Some by eauto. lia.
    - rewrite map_size_insert_None by exact Hk. lia. }
  split; [|split; [|split; [apply Hstep|]]].
  - intros key Hne. rewrite ServeHTTP_store.
    destruct (attempt p env r) as [err cause|st h b]; [reflexivity|].
    destruct (isCacheable r && (200 <=? st) && (st <=? 299)); [|reflexivity].
    simpl. now rewrite lookup_insert_ne.
  - intros key Hk. rewrite ServeHTTP_store.
    destruct (attempt p env r) as [err cause|st h b]; [exact Hk|].
    destruct (isCacheable r && (200 <=? st) && (st <=? 299)); [|exact Hk].
    simpl. rewrite lookup_insert. case_decide; [eauto|exact Hk].
  - intros reqs. rewrite serveAll_store. revert c.
    induction reqs as [|er reqs IH]; intros c'; [simpl; lia|].
    cbn [fold_left length]. specialize (IH (Handle p er.1 er.2 c').2).
    pose proof (Hstep er.1 newRecorder er.2 c') as Hs. unfold Handle in *.
    lia.
Qed.

(** X10. While the upstream answers with a status below 500 the cache is
    not consulted: the response has the status and body of the upstream
    and is the same whatever the store holds. *)
Theorem healthy_upstream_bypasses_store
    (p : Proxy) (env : Env) (r : Request) (c : Cache) (st : Z) (h : HeaderMap) (b : string) :
  attempt p env r = Answered st h b ->
  st < 500 ->
  wCode (Handle p env r c).1 = Some st /\
  wBody (Handle p env r c).1 = b /\
  Values (wHeader (Handle p env r c).1) "X-Backup-Saved-At" =
    Values (CopyHeadersForClient ∅ (rangeOrder env h)) "X-Backup-Saved-At" /\
  (forall c', (Handle p env r c').1 = (Handle p env r c).1).
Proof.
  intros E Hst.
  assert (Hg : forall c0, (Handle p env r c0).1 =
    {| wHeader := HSet (HSet (CopyHeadersForClient ∅ (rangeOrder env h))
                             "X-Served-By" "Aegis")
                       "X-Cache" (passStatus (isCacheable r) st);
       wCode := Some st; wBody := b |}).
  { intros c0. unfold Handle. rewrite (ServeHTTP_Answered _ _ _ _ _ _ _ _ E).
    destruct (Z.leb_spec 500 st); [lia|]. reflexivity. }
  rewrite Hg. simpl. split; [reflexivity|]. split; [reflexivity|]. split.
  - now rewrite !Values_HSet_other by (vm_compute; discriminate).
  - intros c'. now rewrite Hg.
Qed.

Lemma healthy_upstream_bypasses_store_witness :
  wCode (Handle Sample.proxy (Sample.env Sample.notFound 100) (Sample.request "GET" ∅)
           {| data := {[ "GET /users?page=1"%string := Sample.stored ]} |}).1 = Some 404.
Proof.
  apply (healthy_upstream_bypasses_store Sample.proxy (Sample.env Sample.notFound 100)
           (Sample.request "GET" ∅)
           {| data := {[ "GET /users?page=1"%string := Sample.stored ]} |}
           404 ∅ "no such user").
  - reflexivity.
  - lia.
Defined.

(** ** More on the cache key *)

Lemma split_at_first c x x' y y' :
  lacksByte c x = true -> lacksByte c x' = true ->
  x +:+ String c y = x' +:+ String c y' -> x = x' /\ y = y'.
Proof.
  revert x'. induction x as [|a x IH]; intros [|a' x'] Hx Hx'.
  - rewrite !str_app_nil_l. intros [= ->]. now split.
  - rewrite str_app_nil_l, str_app_cons. intros [= <- _].
    simpl in Hx'. rewrite Ascii.eqb_refl in Hx'. discriminate.
  - rewrite str_app_nil_l, str_app_cons. intros [= -> _].
    simpl in Hx. rewrite Ascii.eqb_refl in Hx. discriminate.
  - rewrite !str_app_cons. intros [= -> H].
    simpl in Hx, Hx'. apply andb_prop in Hx as [_ Hx]. apply andb_prop in Hx' as [_ Hx'].
    destruct (IH x' Hx Hx' H) as [-> ->]. now split.
Qed.

(** X11. The keys of a GET and of a HEAD request are never equal, whatever
    the paths, queries, headers and configurations: a response stored for
    one method is never served for the other. *)
Theorem GET_and_HEAD_keys_differ (p p' : Proxy) (r r' : Request) :
  isCacheable r = true -> isCacheable r' = true ->
  Method r <> Method r' ->
  cacheKey p r <> cacheKey p' r'.
Proof.
  intros Hc Hc' Hne. rewrite !cacheKey_keyFormat. unfold keyFormat.
  unfold isCacheable in Hc, Hc'.
  apply orb_prop in Hc as [Hm|Hm]; apply String.eqb_eq in Hm;
  apply orb_prop in Hc' as [Hm'|Hm']; apply String.eqb_eq in Hm';
    rewrite Hm, Hm' in *; try contradiction; discriminate.
Qed.

Lemma GET_and_HEAD_keys_differ_witness :
  cacheKey Sample.proxy (Sample.request "GET" ∅) <>
  cacheKey Sample.proxy (Sample.request "HEAD" ∅).
Proof.
  apply (GET_and_HEAD_keys_differ Sample.proxy Sample.proxy
           (Sample.request "GET" ∅) (Sample.request "HEAD" ∅));
    [reflexivity|reflexivity|discriminate].
Defined.

(** X12. With no key header configured, the key determines the method, the
    path and the query of a request whose method has no space and whose
    path has no question mark. *)
Theorem cacheKey_determines_request (p : Proxy) (r r' : Request) :
  keyHeaders p = [] ->
  lacksByte " " (Method r) = true -> lacksByte " " (Method r') = true ->
  lacksByte "?" (Path (ReqURL r)) = true -> lacksByte "?" (Path (ReqURL r')) = true ->
  cacheKey p r = cacheKey p r' ->
  Method r = Method r' /\ Path (ReqURL r) = Path (ReqURL r') /\
  RawQuery (ReqURL r) = RawQuery (ReqURL r').
Proof.
  intros Hk Hm Hm' Hp Hp'. rewrite !cacheKey_keyFormat. unfold keyFormat.
  rewrite Hk. simpl. rewrite !str_app_nil_r. intros H.
  change (Method r +:+ String " " (Path (ReqURL r) +:+ "?" +:+ RawQuery (ReqURL r)) =
          Method r' +:+ String " " (Path (ReqURL r') +:+ "?" +:+ RawQuery (ReqURL r'))) in H.
  apply split_at_first in H as [-> H]; [|assumption..].
  change (Path (ReqURL r) +:+ String "?" (RawQuery (ReqURL r)) =
          Path (ReqURL r') +:+ String "?" (RawQuery (ReqURL r'))) in H.
  apply split_at_first in H as [-> ->]; [|assumption..].
  now repeat split.
Qed.

Lemma cacheKey_determines_request_witness :
  Method (Sample.request "GET" ∅) = Method (Sample.request "GET" {[ "Accept"%string := ["*/*"%string] ]}).
Proof.
  apply (cacheKey_determines_request
           {| upstream := upstream Sample.proxy; timeout := 1000; ttl := 0; keyHeaders := [] |}
           (Sample.request "GET" ∅)
           (Sample.request "GET" {[ "Accept"%string := ["*/*"%string] ]}));
    reflexivity.
Defined.

(** ** Headers across the proxy *)

Lemma copy_canonical_lookup (h dst : HeaderMap) l k :
  l ≡ₚ map_to_list h ->
  (forall k vv, h !! k = Some vv -> CanonicalHeaderKey k = k) ->
  values (fold_left copyEntry l dst) k =
  values dst k ++ if IsHopByHopHeader k then [] else values h k.
Proof.
  intros Hperm Hcan. rewrite values_copy. f_equal. now apply copied_canonical.
Qed.

(** X13. A response passed through from the upstream carries, under every
    header name other than [X-Served-By] and [X-Cache], exactly the values
    the upstream sent under that name, and none under a hop-by-hop name;
    [X-Served-By] and [X-Cache] have the single value the handler sets,
    whatever the upstream sent under them. The upstream header is one
    with canonical keys, as a parsed response has. *)
Theorem passed_through_headers
    (p : Proxy) (env : Env) (r : Request) (c : Cache) (st : Z) (h : HeaderMap) (b : string) :
  rangeSound env ->
  attempt p env r = Answered st h b ->
  st < 500 \/ isCacheable r = false ->
  (forall k vv, h !! k = Some vv -> CanonicalHeaderKey k = k) ->
  (forall k, k <> "X-Served-By"%string -> k <> "X-Cache"%string ->
     values (wHeader (Handle p env r c).1) k =
     if IsHopByHopHeader k then [] else values h k) /\
  values (wHeader (Handle p env r c).1) "X-Served-By" = ["Aegis"%string] /\
  values (wHeader (Handle p env r c).1) "X-Cache" = [passStatus (isCacheable r) st].
Proof.
  intros Hrange E Hst Hcan. unfold Handle.
  rewrite (ServeHTTP_Answered _ _ _ _ _ _ _ _ E).
  assert ((500 <=? st) && isCacheable r = false) as ->.
  { destruct Hst as [Hst| ->]; [|apply andb_false_r].
    destruct (Z.leb_spec 500 st); [lia|reflexivity]. }
  simpl. unfold HSet, values.
  change (CanonicalHeaderKey "X-Cache") with "X-Cache"%string.
  change (CanonicalHeaderKey "X-Served-By") with "X-Served-By"%string.
  split; [|split].
  - intros k Hk1 Hk2. rewrite !lookup_insert_ne by congruence.
    fold (values (CopyHeadersForClient ∅ (rangeOrder env h)) k).
    unfold CopyHeadersForClient.
    rewrite (copy_canonical_lookup h ∅ _ k (Hrange h) Hcan).
    unfold values at 1. now rewrite lookup_empty.
  - rewrite lookup_insert_ne by discriminate. now rewrite lookup_insert_eq.
  - now rewrite lookup_insert_eq.
Qed.

Lemma passed_through_headers_witness :
  values (wHeader (Handle Sample.proxy (Sample.env Sample.ok 100)
                     (Sample.request "POST" ∅) New).1) "Connection" = [] /\
  values (wHeader (Handle Sample.proxy (Sample.env Sample.ok 100)
                     (Sample.request "POST" ∅) New).1) "Content-Type" =
    ["application/json"%string].
Proof.
  destruct (passed_through_headers Sample.proxy (Sample.env Sample.ok 100)
              (Sample.request "POST" ∅) New 200 Sample.okHeader "{}") as (H & _).
  - intros h. reflexivity.
  - reflexivity.
  - left. lia.
  - intros k vv Hk. unfold Sample.okHeader in Hk.
    apply lookup_insert_Some in Hk as [[<- _]|[_ Hk]]; [reflexivity|].
    apply lookup_singleton_Some in Hk as [<- _]. reflexivity.
  - split.
    + rewrite (H "Connection"%string); [reflexivity|discriminate|discriminate].
    + rewrite (H "Content-Type"%string); [reflexivity|discriminate|discriminate].
Defined.

(** X14. The request sent upstream does not depend on the hop-by-hop
    headers of the client: two requests that differ only in their
    headers, and whose headers have the same values under every name that
    is not hop-by-hop, are sent upstream as the same request; it has the
    method, body and query of the client's request and no hop-by-hop
    header. The header maps have canonical keys, as parsed ones have. *)
Theorem upstream_request_ignores_hop_by_hop
    (p : Proxy) (env : Env) (r r' : Request) :
  rangeSound env ->
  Method r = Method r' -> ReqURL r = ReqURL r' -> ReqBody r = ReqBody r' ->
  ReqContext r = ReqContext r' ->
  (forall k vv, ReqHeader r !! k = Some vv -> CanonicalHeaderKey k = k) ->
  (forall k vv, ReqHeader r' !! k = Some vv -> CanonicalHeaderKey k = k) ->
  (forall k, IsHopByHopHeader k = false ->
     values (ReqHeader r) k = values (ReqHeader r') k) ->
  upstreamRequest p env r = upstreamRequest p env r' /\
  OutMethod (upstreamRequest p env r) = Method r /\
  OutBody (upstreamRequest p env r) = ReqBody r /\
  RawQuery (OutURL (upstreamRequest p env r)) = RawQuery (ReqURL r) /\
  (forall k, IsHopByHopHeader k = true -> OutHeader (upstreamRequest p env r) !! k = None) /\
  (forall k, IsHopByHopHeader k = false ->
     values (OutHeader (upstreamRequest p env r)) k = values (ReqHeader r) k).
Proof.
  intros Hrange Hm Hu Hb Hctx Hcan Hcan' Hsame.
  assert (Hlook : forall (h : HeaderMap),
    (forall k vv, h !! k = Some vv -> CanonicalHeaderKey k = k) ->
    forall k, CopyHeadersForUpstream ∅ (rangeOrder env h) !! k =
      match (if IsHopByHopHeader k then [] else values h k) with
      | [] => None
      | vs => Some vs
      end).
  { intros h Hc k. unfold CopyHeadersForUpstream.
    rewrite copy_lookup, (copied_canonical h _ k (Hrange h) Hc).
    unfold values at 2. rewrite lookup_empty. simpl.
    now destruct (if IsHopByHopHeader k then [] else values h k). }
  split; [|split; [reflexivity|split; [reflexivity|split; [reflexivity|split]]]].
  - unfold upstreamRequest, upstreamURL. rewrite Hm, Hu, Hb, Hctx. f_equal.
    apply map_eq. intros k. rewrite (Hlook _ Hcan), (Hlook _ Hcan').
    destruct (IsHopByHopHeader k) eqn:Hk; [reflexivity|]. now rewrite (Hsame k Hk).
  - intros k Hk. simpl. now rewrite (Hlook _ Hcan), Hk.
  - intros k Hk. simpl. unfold values at 1. rewrite (Hlook _ Hcan), Hk.
    now destruct (values (ReqHeader r) k).
Qed.

Lemma upstream_request_ignores_hop_by_hop_witness :
  upstreamRequest Sample.proxy (Sample.env Sample.ok 100)
    (Sample.request "GET" {[ "Accept"%string := ["*/*"%string] ]}) =
  upstreamRequest Sample.proxy (Sample.env Sample.ok 100)
    (Sample.request "GET" {[ "Accept"%string := ["*/*"%string];
                             "Connection"%string := ["close"%string] ]}).
Proof.
  apply (upstream_request_ignores_hop_by_hop Sample.proxy (Sample.env Sample.ok 100)
    (Sample.request "GET" {[ "Accept"%string := ["*/*"%string] ]})
    (Sample.request "GET" {[ "Accept"%string := ["*/*"%string];
                             "Connection"%string := ["close"%string] ]})).
  - intros h. reflexivity.
  - reflexivity.
  - reflexivity.
  - reflexivity.
  - reflexivity.
  - intros k vv Hk. simpl in Hk. apply lookup_singleton_Some in Hk as [<- _]. reflexivity.
  - intros k vv Hk. simpl in Hk.
    apply lookup_insert_Some in Hk as [[<- _]|[_ Hk]]; [reflexivity|].
    apply lookup_singleton_Some in Hk as [<- _]. reflexivity.
  - intros k Hk. simpl. unfold values.
    destruct (decide (k = "Accept"%string)) as [->|Hne]; [reflexivity|].
    rewrite lookup_insert_ne by congruence.
    destruct (decide (k = "Connection"%string)) as [->|Hne']; [discriminate Hk|].
    now rewrite !lookup_singleton_ne by congruence.
Defined.

(** ** Which response is the backup *)

Lemma Handle_not_stored p env r c st h b :
  attempt p env r = Answered st h b ->
  st < 200 \/ 299 < st ->
  (Handle p env r c).2 = c.
Proof.
  intros E Hst. unfold Handle. rewrite ServeHTTP_store, E.
  destruct (isCacheable r); [simpl|reflexivity].
  destruct (Z.leb_spec 200 st); [simpl|reflexivity].
  destruct (Z.leb_spec st 299); [lia|reflexivity].
Qed.

(** X15. The backup is the latest response with a status from 200 to 299.
    After two such answers to the same cacheable request, a failing third
    request is served the status and body of the second; and an answer
    with another status below 500 (a 404, say) between the stored answer
    and the failure leaves the backup as it was. The entry is unexpired
    at the time of the failure. *)
Theorem backup_is_latest_success
    (p : Proxy) (r : Request) (env1 env2 env3 : Env) (c : Cache)
    (st1 st2 : Z) (h1 h2 : HeaderMap) (b1 b2 cause : string) :
  isCacheable r = true ->
  attempt p env1 r = Answered st1 h1 b1 -> 200 <= st1 <= 299 ->
  attempt p env2 r = Answered st2 h2 b2 -> st2 < 500 ->
  failureCause p env3 r = Some cause ->
  let c1 := (Handle p env1 r c).2 in
  let c2 := (Handle p env2 r c1).2 in
  let w3 := (Handle p env3 r c2).1 in
  (200 <= st2 <= 299 ->
     ttl p <= 0 \/ nowGet env3 <= nowExpiry env2 + ttl p ->
     wCode w3 = Some st2 /\ wBody w3 = b2 /\
     Values (wHeader w3) "X-Backup-Saved-At" = [formatRFC3339 env3 (nowSaved env2)]) /\
  (st2 < 200 \/ 299 < st2 ->
     ttl p <= 0 \/ nowGet env3 <= nowExpiry env1 + ttl p ->
     c2 = c1 /\ wCode w3 = Some st1 /\ wBody w3 = b1 /\
     Values (wHeader w3) "X-Backup-Saved-At" = [formatRFC3339 env3 (nowSaved env1)]).
Proof.
  intros Hc E1 Hst1 E2 Hst2 Hf c1 c2 w3.
  assert (Hlive : forall env0 now, ttl p <= 0 \/ now <= nowExpiry env0 + ttl p ->
            ZeroOrExpiry (nowExpiry env0) (ttl p) = 0 \/
            now <= ZeroOrExpiry (nowExpiry env0) (ttl p)).
  { intros env0 now H. unfold ZeroOrExpiry, TimeAdd.
    destruct (Z.leb_spec (ttl p) 0); [now left|right; lia]. }
  assert (Hserve : forall c0 env0 st h b,
            ttl p <= 0 \/ nowGet env3 <= nowExpiry env0 + ttl p ->
            let w := (Handle p env3 r
                        {| data := <[cacheKey p r :=
                             {| Status := st; Header := CloneHeaderSanitized (rangeOrder env0 h);
                                Body := b; SavedAt := nowSaved env0;
                                ExpireAt := ZeroOrExpiry (nowExpiry env0) (ttl p) |}]> (data c0) |}).1 in
            wCode w = Some st /\ wBody w = b /\
            Values (wHeader w) "X-Backup-Saved-At" = [formatRFC3339 env3 (nowSaved env0)]).
  { intros c0 env0 st h b Hl w. unfold w.
    set (entry := {| Status := st; Header := CloneHeaderSanitized (rangeOrder env0 h);
                     Body := b; SavedAt := nowSaved env0;
                     ExpireAt := ZeroOrExpiry (nowExpiry env0) (ttl p) |}).
    pose proof (Get_Set_same (cacheKey p r) entry (nowGet env3) c0
                  (Hlive env0 (nowGet env3) Hl)) as Hget.
    simpl in Hget.
    rewrite (Handle_backup_hit p env3 r _ cause entry Hc Hf Hget).
    simpl. split; [reflexivity|]. split; [reflexivity|].
    apply backupHeader_annotations. }
  assert (Hc1 : c1 = (Handle p env1 r c).2) by reflexivity.
  rewrite (Handle_stored _ _ _ _ _ _ _ Hc E1 Hst1) in Hc1. simpl in Hc1.
  split.
  - intros Hst Hl. unfold w3, c2.
    rewrite (Handle_stored _ _ _ _ _ _ _ Hc E2 Hst). simpl.
    apply (Hserve c1 env2 st2 h2 b2 Hl).
  - intros Hst Hl.
    assert (Hc2 : c2 = c1) by (apply (Handle_not_stored _ _ _ _ _ _ _ E2 Hst)).
    split; [exact Hc2|]. unfold w3. rewrite Hc2, Hc1.
    apply (Hserve c env1 st1 h1 b1 Hl).
Qed.

Lemma backup_is_latest_success_witness :
  wBody (Handle Sample.proxy (Sample.env Sample.serverError 120) (Sample.request "GET" ∅)
           (Handle Sample.proxy (Sample.env Sample.notFound 110) (Sample.request "GET" ∅)
              (Handle Sample.proxy (Sample.env Sample.ok 100) (Sample.request "GET" ∅) New).2).2).1
  = "{}"%string.
Proof.
  destruct (backup_is_latest_success Sample.proxy (Sample.request "GET" ∅)
              (Sample.env Sample.ok 100) (Sample.env Sample.notFound 110)
              (Sample.env Sample.serverError 120) New
              200 404 Sample.okHeader ∅ "{}" "no such user" "upstream status 500")
    as (_ & H).
  - reflexivity.
  - reflexivity.
  - lia.
  - reflexivity.
  - lia.
  - reflexivity.
  - destruct H as (_ & _ & Hb & _); [right; lia|right; simpl; lia|exact Hb].
Defined.

(** X16. A backup is not served once its TTL has run out: when a response
    was stored under a positive TTL and the same request fails later than
    [TTL] after the expiry clock was read, the answer is the synthesized
    502, although the entry is still in the store. *)
Theorem expired_backup_not_served
    (p : Proxy) (r : Request) (env0 env : Env) (c : Cache)
    (st : Z) (h : HeaderMap) (b cause : string) :
  isCacheable r = true ->
  attempt p env0 r = Answered st h b -> 200 <= st <= 299 ->
  0 < ttl p -> 0 <= nowExpiry env0 ->
  failureCause p env r = Some cause ->
  nowExpiry env0 + ttl p < nowGet env ->
  let c1 := (Handle p env0 r c).2 in
  Handle p env r c1 = (badGateway ("Bad Gateway (no cached backup): " +:+ cause), c1) /\
  (exists entry, data c1 !! cacheKey p r = Some entry /\ Body entry = b) /\
  1 <= (Size (Handle p env r c1).2).1.
Proof.
  intros Hc E Hst Httl Hnow Hf Hlate c1.
  assert (Hc1 : c1 = (Handle p env0 r c).2) by reflexivity.
  rewrite (Handle_stored _ _ _ _ _ _ _ Hc E Hst) in Hc1. simpl in Hc1.
  assert (Hexp : ZeroOrExpiry (nowExpiry env0) (ttl p) = nowExpiry env0 + ttl p).
  { unfold ZeroOrExpiry, TimeAdd. destruct (Z.leb_spec (ttl p) 0); [lia|reflexivity]. }
  assert (Hmiss : (Get (cacheKey p r) (nowGet env) c1).1.2 = false).
  { apply Get_not_found. intros (v & Hv & Hlive).
    rewrite Hc1 in Hv. simpl in Hv. rewrite lookup_insert_eq in Hv. injection Hv as <-.
    simpl in Hlive. rewrite Hexp in Hlive. lia. }
  rewrite (Handle_backup_miss _ _ _ _ _ Hc Hf Hmiss). simpl.
  split; [reflexivity|]. split.
  - rewrite Hc1. simpl. rewrite lookup_insert_eq. eexists. split; reflexivity.
  - rewrite Hc1. simpl.
    destruct (data c !! cacheKey p r) eqn:Hk.
    + rewrite map_size_insert_Some by eauto.
      assert (size (data c) <> 0%nat); [|lia].
      intros E0. apply map_size_empty_inv in E0. rewrite E0, lookup_empty in Hk. discriminate.
    + rewrite map_size_insert_None by exact Hk. lia.
Qed.

Lemma expired_backup_not_served_witness :
  wCode (Handle Sample.proxy (Sample.env Sample.serverError 201) (Sample.request "GET" ∅)
           (Handle Sample.proxy (Sample.env Sample.ok 100) (Sample.request "GET" ∅) New).2).1
  = Some 502.
Proof.
  destruct (expired_backup_not_served Sample.proxy (Sample.request "GET" ∅)
              (Sample.env Sample.ok 100) (Sample.env Sample.serverError 201) New
              200 Sample.okHeader "{}" "upstream status 500") as (H & _).
  - reflexivity.
  - reflexivity.
  - lia.
  - simpl. lia.
  - simpl. lia.
  - reflexivity.
  - simpl. lia.
  - rewrite H. reflexivity.
Defined.

(** ** Sanitized copies *)

(** X17. [CloneHeaderSanitized] gives a header with canonical keys, no
    hop-by-hop name and no name without values; cloning a clone changes
    nothing, and neither does cloning any header that is already of that
    kind, whatever the order in which the maps are walked. *)
Theorem CloneHeaderSanitized_idempotent
    (range : HeaderMap -> list (string * list string))
    (l : list (string * list string)) :
  (forall h : HeaderMap, range h ≡ₚ map_to_list h) ->
  sanitized (CloneHeaderSanitized l) /\
  CloneHeaderSanitized (range (CloneHeaderSanitized l)) = CloneHeaderSanitized l /\
  (forall h, sanitized h -> CloneHeaderSanitized (range h) = h) /\
  CloneHeaderSanitized [] = ∅.
Proof.
  intros Hrange.
  assert (Hfix : forall h, sanitized h -> CloneHeaderSanitized (range h) = h).
  { intros h Hs. unfold CloneHeaderSanitized, CopyHeadersForClient.
    now apply copy_sanitized. }
  split; [apply CloneHeaderSanitized_sanitized|]. split; [|split; [exact Hfix|reflexivity]].
  apply Hfix, CloneHeaderSanitized_sanitized.
Qed.

Lemma CloneHeaderSanitized_idempotent_witness :
  CloneHeaderSanitized (map_to_list (CloneHeaderSanitized (map_to_list Sample.okHeader))) =
  CloneHeaderSanitized (map_to_list Sample.okHeader).
Proof.
  destruct (CloneHeaderSanitized_idempotent map_to_list (map_to_list Sample.okHeader))
    as (_ & H & _).
  - intros h. reflexivity.
  - exact H.
Defined.

(** ** The logger *)

(** X18. A logger that is not enabled writes nothing. An enabled one
    writes every error, writes information at the levels [debug] and
    [info] only, and debug messages at the level [debug] only; so a
    configuration under which [Debug] writes is one under which [Info]
    writes, and one under which [Info] writes is one under which [Error]
    writes. What is written is one line, after the lines already there. *)
Theorem Logger_levels (l : Logger.Logger) (message : string) (out : list string) :
  (Logger.enabled l = false ->
     Logger.Debug l message out = out /\ Logger.Info l message out = out /\
     Logger.Error l message out = out) /\
  (Logger.Debug l message out = out ++ ["[DEBUG] " +:+ message] <->
     Logger.enabled l = true /\ Logger.level l = "debug"%string) /\
  (Logger.Info l message out = out ++ ["[INFO] " +:+ message] <->
     Logger.enabled l = true /\
     (Logger.level l = "debug"%string \/ Logger.level l = "info"%string)) /\
  (Logger.Error l message out = out ++ ["[ERROR] " +:+ message] <->
     Logger.enabled l = true) /\
  (Logger.Debug l message out <> out -> Logger.Info l message out <> out) /\
  (Logger.Info l message out <> out -> Logger.Error l message out <> out).
Proof.
  assert (Hgrow : forall x : string, out ++ [x] <> out).
  { intros x H. apply (f_equal (@length string)) in H.
    rewrite length_app in H. simpl in H. lia. }
  destruct l as [en al lv]. unfold Logger.Debug, Logger.Info, Logger.Error. simpl.
  destruct en; simpl;
    destruct (String.eqb_spec lv "debug") as [Hd|Hd];
    destruct (String.eqb_spec lv "info") as [Hi|Hi]; simpl;
    repeat match goal with
    | |- _ /\ _ => split
    | |- _ <-> _ => split
    | |- _ -> _ => intro
    | H : _ /\ _ |- _ => destruct H
    | H : _ \/ _ |- _ => destruct H
    | H : ?o = ?o ++ _ |- _ => symmetry in H; apply Hgrow in H; contradiction
    | H : ?x <> ?x |- _ => contradiction H; reflexivity
    end;
    try reflexivity; try discriminate; try congruence; try apply Hgrow;
    try (left; congruence); try (right; congruence).
Qed.
